(** * go-async: channel pipelines and futures

    A verification development for the Go library [go-async]
    (packages [pipeline] and [async]).

    Sources.  The snapshot holds more than one revision of some files;
    the comments below name them as follows.

    - "future.go": package [async] with [deferFn], [ExecWithDefer] and
      [ThenWithDefer] (src/unnamed/part_001).
    - "pipeline.go": the stages, in the revision where [Merge] takes a
      context and [Limit] has the [n == 0] case (second document of
      src/future_test.go), exercised by src/pipeline/pipeline_test.go.
      The earlier revision (src/unnamed/part_003), with [ErrorIfDone],
      is [Rt.Earlier]; [Accumulate] and [Collector] are the same in both.
    - "source.go": the generators (src/pipeline/source.go).
    - The test functions quoted ([sliceCollector], the fold of "stop on
      error") are in src/unnamed/part_003.
    - Package [async] before [deferFn] ([Exec] and [Then] as
      [pipeline.Map]) is the second document of src/unnamed/part_002; it
      is [Async0] on the runtime, and [Async0Seq] holds [Then] read
      sequentially.

    The file has two layers.

    - [Seq]: the sequential reading of a pipeline.  A channel whose single
      consumer receives until the channel is closed, under a token that
      never fires, is the list of items it delivers followed by its close.
      Stepping closures ([next], [collect], [fn]) are state-passing
      functions; the captured variables they mutate are the state.
    - [Rt]: a small runtime for goroutines, unbuffered channels, wait
      groups, cancellation tokens and the heap of [Future] objects.  It is
      used where identity of channels, mutation of a [Future] or the
      interleaving of goroutines matters.

    [Stages] ([Filter], [Limit], [Unroll], [Tee]) is read in the first
    way.  [Sched] tries every schedule of a program that comes to rest,
    for the properties that hold whatever the scheduler does. *)

From stdpp Require Import base list strings.
From Stdlib Require Import ZArith Lia PrimFloat.

(** ** Fixed-width signed integers

    [Rangeable] is instantiated at [int8], [int16], [int32], [int64] and
    [int], and at [float32] and [float64].  An integer of width [w] is a
    [Z] in [[min_int w, max_int w]]; [+=] wraps.  The [float64] instance
    is [Float64], below. *)
Module Int.

Definition min_int (w : Z) : Z := (- 2 ^ (w - 1))%Z.
Definition max_int (w : Z) : Z := (2 ^ (w - 1) - 1)%Z.
Definition in_range (w z : Z) : Prop := (min_int w <= z <= max_int w)%Z.
Definition wrap (w z : Z) : Z := ((z + 2 ^ (w - 1)) mod 2 ^ w - 2 ^ (w - 1))%Z.

End Int.

(** ** Sequential reading of the pipeline package *)
Module Seq.

(** What a consumer that receives until close observes on a channel:
    the items delivered so far and whether the close was reached. *)
Definition trace (T : Type) : Type := (list T * bool)%type.

(** [Generate] (pipeline/source.go, lines 5-28), with a token that never
    fires and a consumer that takes every item: the loop calls [next];
    on [ok = false] it returns and the deferred [close] runs; otherwise the
    send completes and the loop goes round.  [fuel] bounds the number of
    calls of [next]; running out leaves the channel open. *)
Fixpoint Generate {S T : Type} (fuel : nat) (next : S -> T * bool * S) (s : S)
  : trace T :=
  match fuel with
  | O => ([], false)
  | Datatypes.S n =>
      let '(v, ok, s') := next s in
      if ok then
        let '(vs, closed) := Generate n next s' in (v :: vs, closed)
      else ([], true)
  end.

(** [ToChan] (pipeline/source.go, lines 30-42): the closure captures the
    index [i]; [zero] is the zero value of the element type. *)
Definition ToChan_next {T : Type} (zero : T) (values : list T) (i : nat)
  : T * bool * nat :=
  let ok := i <? length values in
  let v := if ok then default zero (values !! i) else zero in
  (v, ok, Datatypes.S i).

Definition ToChan {T : Type} (zero : T) (fuel : nat) (values : list T) : trace T :=
  Generate fuel (ToChan_next zero values) 0.

(** The outcome of a call that either panics or returns a channel. *)
Inductive outcome : Type :=
| Panic (msg : string)
| Output (items : list Z) (closed : bool).

(** [Range] (pipeline/source.go, lines 48-93) at element width [w]. The
    stepping closures capture [from] and advance it with a wrapping [+=]. *)
Definition Range_up_next (w to step : Z) (from : Z) : Z * bool * Z :=
  let i := from in
  let from := Int.wrap w (from + step) in
  (i, (i <? to)%Z, from).

Definition Range_down_next (w to step : Z) (from : Z) : Z * bool * Z :=
  let i := from in
  let from := Int.wrap w (from + step) in
  (i, (i >? to)%Z, from).

Definition Range (w : Z) (fuel : nat) (from to : Z) (optStep : list Z) : outcome :=
  let step := 1%Z in
  let step := if (from >? to)%Z then Int.wrap w (- step) else step in
  let step := match optStep with s :: _ => s | [] => step end in
  if (from <? to)%Z then
    if (step <=? 0)%Z then Panic "step must be greater than 0"%string
    else let '(items, closed) := Generate fuel (Range_up_next w to step) from in
         Output items closed
  else if (from >? to)%Z then
    if (step >=? 0)%Z then Panic "step must be less than 0"%string
    else let '(items, closed) := Generate fuel (Range_down_next w to step) from in
         Output items closed
  else
    let '(items, closed) := ToChan 0%Z fuel [from] in Output items closed.



(** *** Transform, batch and fold stages (pipeline.go)

    In this layer a channel handed to a stage is the list of items its
    consumer receives from it before it is closed. *)

Definition error : Type := string.

(** The state of a cancellation token at the moment it is inspected:
    whether [Done()] is closed and what [Err()] returns. *)
Record Context : Type := { Done : bool; Err : option error }.

(** [ErrorIfDone] (pipeline.go): a non-blocking select on [ctx.Done()]. *)
Definition ErrorIfDone (ctx : Context) : option error :=
  if Done ctx then Err ctx else None.

(** A receive [v, ok := <-in]: the next item, or [None] once closed. *)
Definition recv {T : Type} (input : list T) : option T * list T :=
  match input with
  | [] => (None, [])
  | v :: rest => (Some v, rest)
  end.

(** [Map] and [OrDone] while the token does not fire: every item read is
    transformed and delivered, in order. *)
Definition Map {T V : Type} (mapFn : T -> V) (input : list T) : list V :=
  mapFn <$> input.

Definition OrDone {T : Type} (input : list T) : list T :=
  Map (fun t => t) input.

(** [Accumulate] (pipeline.go): [input] is what the loop
    [for v := range OrDone(ctx, input)] receives, and [ctx] the token as
    the trailing [ErrorIfDone] finds it.  The loop either returns from
    inside ([inl], with the items it has not received) or runs to the end
    of the range ([inr]). *)
Fixpoint Accumulate_range {T V : Type} (fn : V -> T -> V * option error)
    (out : V) (items : list T) : (V * error * list T) + V :=
  match items with
  | [] => inr out
  | v :: rest =>
      let '(out, err) := fn out v in
      match err with
      | Some e => inl (out, e, rest)
      | None => Accumulate_range fn out rest
      end
  end.

Definition Accumulate {T V : Type} (ctx : Context)
    (fn : V -> T -> V * option error) (initVal : V) (input : list T)
  : V * option error :=
  let out := initVal in
  match Accumulate_range fn out (OrDone input) with
  | inl (out, e, _) => (out, Some e)
  | inr out => (out, ErrorIfDone ctx)
  end.

(** [Collector] (pipeline.go) while the token does not fire: [collect]
    reads from the gated input and returns an aggregate and [ok]; the
    third component is what it left unread. *)
Fixpoint Collector_loop {T V : Type} (fuel : nat)
    (fn : list T -> V * bool * list T) (input : list T) : trace V :=
  match fuel with
  | O => ([], false)
  | Datatypes.S n =>
      let '(v, ok, rest) := fn input in
      if ok then
        let '(vs, closed) := Collector_loop n fn rest in (v :: vs, closed)
      else ([], true)
  end.

Definition Collector {T V : Type} (fuel : nat)
    (collect : list T -> V * bool * list T) (input : list T) : trace V :=
  Collector_loop fuel collect (OrDone input).

(** The fixed-size batch rule of the test suite ([sliceCollector] in
    [TestCollector]): read up to [sliceLen] items, stop early at close,
    report [len(r) > 0]. *)
Fixpoint sliceCollector_loop {T : Type} (n : nat) (r : list T) (input : list T)
  : list T * bool * list T :=
  match n with
  | O => (r, 0 <? length r, input)
  | Datatypes.S n' =>
      match recv input with
      | (None, input') => (r, 0 <? length r, input')
      | (Some v, input') => sliceCollector_loop n' (r ++ [v]) input'
      end
  end.

Definition sliceCollector {T : Type} (sliceLen : nat) (input : list T)
  : list T * bool * list T :=
  sliceCollector_loop sliceLen [] input.

(** Sizes of the aggregates the batching law announces for an input of
    length [L]: [L / k] full ones, then the remainder when it is nonzero. *)
Definition batch_sizes (k L : nat) : list nat :=
  replicate (Nat.div L k) k ++ (if Nat.modulo L k =? 0 then [] else [Nat.modulo L k]).



End Seq.

(** ** [Range] at [float64]

    The same code (pipeline/source.go, lines 48-93) with the element type
    [float64]: the numbers are those of IEEE 754 binary64, [+=] rounds to
    the nearest one (ties to even), and [<], [>], [<=], [>=] are the
    comparisons of the format. *)
Module Float64.

Inductive outcome : Type :=
| Panic (msg : string)
| Output (items : list float) (closed : bool).

Definition Range_up_next (to step : float) (from : float) : float * bool * float :=
  let i := from in
  let from := (from + step)%float in
  (i, (i <? to)%float, from).

Definition Range_down_next (to step : float) (from : float) : float * bool * float :=
  let i := from in
  let from := (from + step)%float in
  (i, (to <? i)%float, from).

Definition Range (fuel : nat) (from to : float) (optStep : list float) : outcome :=
  let step := 1%float in
  let step := if (to <? from)%float then (- step)%float else step in
  let step := match optStep with s :: _ => s | [] => step end in
  if (from <? to)%float then
    if (step <=? 0)%float then Panic "step must be greater than 0"%string
    else let '(items, closed) := Seq.Generate fuel (Range_up_next to step) from in
         Output items closed
  else if (to <? from)%float then
    if (0 <=? step)%float then Panic "step must be less than 0"%string
    else let '(items, closed) := Seq.Generate fuel (Range_down_next to step) from in
         Output items closed
  else
    let '(items, closed) := Seq.ToChan 0%float fuel [from] in Output items closed.


End Float64.

(** ** A runtime for goroutines, channels and futures

    Goroutines are continuation-passing programs over the blocking
    primitives of the source: channel operations, [select] against
    [ctx.Done()], [go], wait groups, and the loads and stores of
    [Future] fields.  The machine interleaves them one action at a time;
    the schedule is the list of actions. *)
Module Rt.

Definition chan : Type := nat.            (* a channel made by [make(chan T)] *)
Definition chanref : Type := option chan. (* a channel value; [None] is [nil] *)
Definition ctxid : Type := nat.           (* a [context.Context] *)
Definition futp : Type := nat.            (* a [*Future] *)
Definition wgid : Type := nat.            (* a [*sync.WaitGroup] *)
Definition error : Type := string.

(** Values of type [func()].  The closures of the source are listed by
    the place that creates them, with the variables they capture. *)
#[warnings="-register-all"]
Inductive func : Type :=
| UserFunc (id : nat)
    (* a cleanup supplied by the caller; running it is observable *)
| NoOp
    (* [func() {}], future.go line 79 *)
| Chain (dfn : option func) (deferFn : chanref).
    (* the closure of [ThenWithDefer], future.go lines 121-130: [dfn] is
       what [next] returned and [deferFn] is [first]'s handoff channel *)

Inductive value : Type :=
| VInt (z : Z)                              (* an item of a pipeline *)
| VResult (val : Z) (err : option error)    (* [futureResult[T]] *)
| VFunc (f : option func).                  (* [func()], [None] is [nil] *)

(** [Future[T]] (future.go lines 16-19). *)
Record Future : Type := { deferFn : chanref; result : chanref }.

(** What an observer of the program sees. *)
Inductive obs : Type :=
| Called (id : nat)                       (* the caller's function [id] ran *)
| Cleaned (id : nat)                      (* the caller's cleanup [id] ran *)
| Returned (val : Z) (err : option error). (* [Await] returned *)

Inductive proc : Type :=
| Ret                                         (* the goroutine returns *)
| OutOfFuel                                   (* a loop of the model ran out of fuel *)
| Emit (e : obs) (k : proc)
| MakeChan (k : chan -> proc)                 (* [make(chan T)] *)
| Send (c : chanref) (v : value) (k : proc)   (* [c <- v] *)
| Recv (c : chanref) (k : option value -> proc)
    (* [v, ok := <-c]; [None] when the channel is closed *)
| SelectSend (x : ctxid) (c : chanref) (v : value) (kdone ksent : proc)
    (* [select { case <-ctx.Done(): kdone; case c <- v: ksent }] *)
| SelectRecv (x : ctxid) (c : chanref) (kdone : proc) (krecv : option value -> proc)
    (* [select { case <-ctx.Done(): kdone; case v, ok := <-c: krecv }] *)
| Close (c : chanref) (k : proc)              (* [close(c)] *)
| Go (p : proc) (k : proc)                    (* [go p] *)
| CtxErr (x : ctxid) (k : option error -> proc)     (* [ctx.Err()] *)
| NewFuture (f : Future) (k : futp -> proc)   (* [&Future[T]{...}] *)
| LoadFuture (p : futp) (k : Future -> proc)  (* read the fields of [*p] *)
| StoreDeferFn (p : futp) (c : chanref) (k : proc)  (* [p.deferFn = c] *)
| Call (f : option func) (k : proc)           (* [f()] *)
| WgNew (n : nat) (k : wgid -> proc)          (* [new(sync.WaitGroup)]; [wg.Add(n)] *)
| WgDone (w : wgid) (k : proc)                (* [wg.Done()] *)
| WgWait (w : wgid) (k : proc).               (* [wg.Wait()] *)

Record machine : Type := {
  chans : list bool;             (* per channel: has it been closed *)
  ctxs : list (option error);    (* per token: [Some e] once fired, [Err() = e] *)
  futs : list Future;            (* the heap of [Future] objects *)
  wgs : list nat;                (* wait-group counters *)
  tasks : list proc;             (* the goroutines *)
  log : list obs;                (* observations, oldest first *)
  crashed : option string        (* the panic that ended the program *)
}.

Definition set_task (t : nat) (p : proc) (m : machine) : machine :=
  {| chans := chans m; ctxs := ctxs m; futs := futs m; wgs := wgs m;
     tasks := <[t := p]> (tasks m); log := log m; crashed := crashed m |}.

Definition add_task (p : proc) (m : machine) : machine :=
  {| chans := chans m; ctxs := ctxs m; futs := futs m; wgs := wgs m;
     tasks := tasks m ++ [p]; log := log m; crashed := crashed m |}.

Definition set_chans (cs : list bool) (m : machine) : machine :=
  {| chans := cs; ctxs := ctxs m; futs := futs m; wgs := wgs m;
     tasks := tasks m; log := log m; crashed := crashed m |}.

Definition set_ctxs (xs : list (option error)) (m : machine) : machine :=
  {| chans := chans m; ctxs := xs; futs := futs m; wgs := wgs m;
     tasks := tasks m; log := log m; crashed := crashed m |}.

Definition set_futs (fs : list Future) (m : machine) : machine :=
  {| chans := chans m; ctxs := ctxs m; futs := fs; wgs := wgs m;
     tasks := tasks m; log := log m; crashed := crashed m |}.

Definition set_wgs (ws : list nat) (m : machine) : machine :=
  {| chans := chans m; ctxs := ctxs m; futs := futs m; wgs := ws;
     tasks := tasks m; log := log m; crashed := crashed m |}.

Definition add_log (e : obs) (m : machine) : machine :=
  {| chans := chans m; ctxs := ctxs m; futs := futs m; wgs := wgs m;
     tasks := tasks m; log := log m ++ [e]; crashed := crashed m |}.

Definition crash (msg : string) (m : machine) : machine :=
  {| chans := chans m; ctxs := ctxs m; futs := futs m; wgs := wgs m;
     tasks := tasks m; log := log m; crashed := Some msg |}.

Definition fired (m : machine) (x : ctxid) : bool :=
  match ctxs m !! x with Some (Some _) => true | _ => false end.

Definition ctx_err (m : machine) (x : ctxid) : option error :=
  match ctxs m !! x with Some e => e | None => None end.

(** The [func()] carried by a received value; a closed channel yields the
    zero value [nil]. *)
Definition as_func (v : option value) : option func :=
  match v with Some (VFunc f) => f | _ => None end.

(** One step of goroutine [t] on its own: an instruction that does not
    wait, a channel operation on a closed channel, or the [ctx.Done()]
    case of a [select] once the token has fired. *)
Definition run_task (t : nat) (m : machine) : option machine :=
  match tasks m !! t with
  | None => None
  | Some p =>
      match p with
      | Ret | OutOfFuel => None
      | Emit e k => Some (set_task t k (add_log e m))
      | MakeChan k =>
          Some (set_task t (k (length (chans m))) (set_chans (chans m ++ [false]) m))
      | Send None _ _ => None
      | Send (Some c) _ _ =>
          match chans m !! c with
          | Some true => Some (crash "send on closed channel" m)
          | _ => None
          end
      | Recv None _ => None
      | Recv (Some c) k =>
          match chans m !! c with
          | Some true => Some (set_task t (k None) m)
          | _ => None
          end
      | SelectSend x _ _ kdone _ =>
          if fired m x then Some (set_task t kdone m) else None
      | SelectRecv x _ kdone _ =>
          if fired m x then Some (set_task t kdone m) else None
      | Close None _ => Some (crash "close of nil channel" m)
      | Close (Some c) k =>
          match chans m !! c with
          | Some false => Some (set_task t k (set_chans (<[c := true]> (chans m)) m))
          | Some true => Some (crash "close of closed channel" m)
          | None => None
          end
      | Go q k => Some (set_task t k (add_task q m))
      | CtxErr x k => Some (set_task t (k (ctx_err m x)) m)
      | NewFuture f k =>
          Some (set_task t (k (length (futs m))) (set_futs (futs m ++ [f]) m))
      | LoadFuture p k =>
          match futs m !! p with
          | Some f => Some (set_task t (k f) m)
          | None => None
          end
      | StoreDeferFn p c k =>
          match futs m !! p with
          | Some f =>
              Some (set_task t k
                      (set_futs (<[p := {| deferFn := c; result := result f |}]> (futs m)) m))
          | None => None
          end
      | Call None _ =>
          Some (crash "runtime error: invalid memory address or nil pointer dereference" m)
      | Call (Some (UserFunc id)) k => Some (set_task t k (add_log (Cleaned id) m))
      | Call (Some NoOp) k => Some (set_task t k m)
      | Call (Some (Chain _ _)) _ =>
          (* The closure is built in [return func() {...}, v, err], which
             assigns it to the named result [dfn], the variable it
             captures: when it runs, [dfn] is the closure itself, and
             [if dfn != nil { dfn() }] calls it again without end. *)
          Some (crash "stack overflow" m)
      | WgNew n k => Some (set_task t (k (length (wgs m))) (set_wgs (wgs m ++ [n]) m))
      | WgDone w k =>
          match wgs m !! w with
          | Some (Datatypes.S n) => Some (set_task t k (set_wgs (<[w := n]> (wgs m)) m))
          | Some O => Some (crash "sync: negative WaitGroup counter" m)
          | None => None
          end
      | WgWait w k =>
          match wgs m !! w with
          | Some O => Some (set_task t k m)
          | _ => None
          end
      end
  end.

(** The communication case of a [select] whose channel is closed. *)
Definition run_closed_case (t : nat) (m : machine) : option machine :=
  match tasks m !! t with
  | Some (SelectSend _ (Some c) _ _ _) =>
      match chans m !! c with
      | Some true => Some (crash "send on closed channel" m)
      | _ => None
      end
  | Some (SelectRecv _ (Some c) _ krecv) =>
      match chans m !! c with
      | Some true => Some (set_task t (krecv None) m)
      | _ => None
      end
  | _ => None
  end.

Definition sender (p : proc) : option (chan * value * proc) :=
  match p with
  | Send (Some c) v k => Some (c, v, k)
  | SelectSend _ (Some c) v _ k => Some (c, v, k)
  | _ => None
  end.

Definition receiver (p : proc) : option (chan * (option value -> proc)) :=
  match p with
  | Recv (Some c) k => Some (c, k)
  | SelectRecv _ (Some c) _ k => Some (c, k)
  | _ => None
  end.

(** A rendezvous on an open unbuffered channel: goroutine [s] sends,
    goroutine [r] receives, both go on. *)
Definition sync (s r : nat) (m : machine) : option machine :=
  if s =? r then None else
  match tasks m !! s, tasks m !! r with
  | Some ps, Some pr =>
      match sender ps, receiver pr with
      | Some (c, v, ks), Some (c', kr) =>
          match chans m !! c with
          | Some false =>
              if c =? c' then Some (set_task r (kr (Some v)) (set_task s ks m))
              else None
          | _ => None
          end
      | _, _ => None
      end
  | _, _ => None
  end.

(** The token [x] fires with error [e] (the caller's [cancel()], or a
    deadline). *)
Definition cancel (x : ctxid) (e : error) (m : machine) : option machine :=
  match ctxs m !! x with
  | Some None => Some (set_ctxs (<[x := Some e]> (ctxs m)) m)
  | _ => None
  end.

Inductive action : Type :=
| Run (t : nat)
| RunClosed (t : nat)
| Sync (s r : nat)
| Cancel (x : ctxid) (e : error).

(** A panic in any goroutine ends the program: nothing steps afterwards. *)
Definition step (m : machine) (a : action) : option machine :=
  match crashed m with
  | Some _ => None
  | None =>
      match a with
      | Run t => run_task t m
      | RunClosed t => run_closed_case t m
      | Sync s r => sync s r m
      | Cancel x e => cancel x e m
      end
  end.

Fixpoint run (sched : list action) (m : machine) : option machine :=
  match sched with
  | [] => Some m
  | a :: rest =>
      match step m a with
      | Some m' => run rest m'
      | None => None
      end
  end.

(** The program starts with the goroutine [main] and [nctx] live tokens. *)
Definition init (nctx : nat) (main : proc) : machine :=
  {| chans := []; ctxs := replicate nctx None; futs := []; wgs := [];
     tasks := [main]; log := []; crashed := None |}.

(** Where a goroutine stands. *)
Inductive status : Type :=
| Finished
| Fuel
| Runnable
| SendingOn (c : chanref) (raced : bool)
| ReceivingOn (c : chanref) (raced : bool)
| Waiting.

Definition status_of (p : proc) : status :=
  match p with
  | Ret => Finished
  | OutOfFuel => Fuel
  | Send c _ _ => SendingOn c false
  | SelectSend _ c _ _ _ => SendingOn c true
  | Recv c _ => ReceivingOn c false
  | SelectRecv _ c _ _ => ReceivingOn c true
  | WgWait _ _ => Waiting
  | _ => Runnable
  end.

Definition statuses (m : machine) : list status := status_of <$> tasks m.

Definition refused (m : machine) (a : action) : bool :=
  match step m a with Some _ => false | None => true end.

(** No goroutine can step, alone or with a partner. *)
Definition quiescent (m : machine) : bool :=
  let n := length (tasks m) in
  forallb (fun t => refused m (Run t) && refused m (RunClosed t)) (seq 0 n) &&
  forallb (fun s => forallb (fun r => refused m (Sync s r)) (seq 0 n)) (seq 0 n).

(** *** Package pipeline on the runtime *)

(** [Generate] (pipeline/source.go lines 5-28).  [next] is the stepping
    closure; [S] holds the variables it captures. *)
Fixpoint Generate_loop {S : Type} (fuel : nat) (x : ctxid) (out : chan)
    (next : ctxid -> S -> (value -> bool -> S -> proc) -> proc) (s : S) : proc :=
  match fuel with
  | O => OutOfFuel
  | Datatypes.S n =>
      next x s (fun v ok s' =>
        if ok then
          SelectSend x (Some out) v
            (Close (Some out) Ret)
            (Generate_loop n x out next s')
        else Close (Some out) Ret)
  end.

Definition Generate {S : Type} (fuel : nat) (x : ctxid)
    (gen : ctxid -> S -> (value -> bool -> S -> proc) -> proc) (s : S)
    (k : chanref -> proc) : proc :=
  MakeChan (fun c => Go (Generate_loop fuel x c gen s) (k (Some c))).

(** [SliceToChan] and [ToChan]: the closure captures the index [i]. *)
Definition SliceToChan_next (slice : list Z)
  : ctxid -> nat -> (value -> bool -> nat -> proc) -> proc :=
  fun _ i k =>
    let ok := i <? length slice in
    let v := if ok then default 0%Z (slice !! i) else 0%Z in
    k (VInt v) ok (Datatypes.S i).

Definition SliceToChan (fuel : nat) (x : ctxid) (slice : list Z)
    (k : chanref -> proc) : proc :=
  Generate fuel x (SliceToChan_next slice) 0 k.

Definition ToChan (fuel : nat) (x : ctxid) (values : list Z)
    (k : chanref -> proc) : proc :=
  SliceToChan fuel x values k.

(** [Map] (pipeline.go): the inner [select] has no [return] in its
    [ctx.Done()] case, the loop goes round to the outer one. *)
Fixpoint Map_loop (fuel : nat) (x : ctxid) (fn : value -> value) (out : chan)
    (input : chanref) : proc :=
  match fuel with
  | O => OutOfFuel
  | Datatypes.S n =>
      SelectRecv x input
        (Close (Some out) Ret)
        (fun r =>
           match r with
           | None => Close (Some out) Ret
           | Some v =>
               SelectSend x (Some out) (fn v)
                 (Map_loop n x fn out input)
                 (Map_loop n x fn out input)
           end)
  end.

Definition Map (fuel : nat) (x : ctxid) (mapFn : value -> value) (input : chanref)
    (k : chanref -> proc) : proc :=
  MakeChan (fun c => Go (Map_loop fuel x mapFn c input) (k (Some c))).

Definition OrDone (fuel : nat) (x : ctxid) (input : chanref) (k : chanref -> proc)
  : proc :=
  Map fuel x (fun t => t) input k.

(** [Limit] (pipeline.go, the revision with [n == 0] and the gate). *)
Fixpoint Limit_loop (fuel : nat) (x : ctxid) (n i : Z) (out : chan) (input : chanref)
  : proc :=
  match fuel with
  | O => OutOfFuel
  | Datatypes.S f =>
      Recv input (fun r =>
        match r with
        | None => Close (Some out) Ret
        | Some v =>
            SelectSend x (Some out) v
              (Close (Some out) Ret)
              (let i := (i + 1)%Z in
               if (i >=? n)%Z then Close (Some out) Ret
               else Limit_loop f x n i out input)
        end)
  end.

Definition Limit (fuel : nat) (x : ctxid) (n : Z) (input : chanref)
    (k : chanref -> proc) : proc :=
  if (n =? 0)%Z then k None
  else
    MakeChan (fun c =>
      OrDone fuel x input (fun gated =>
        Go (Limit_loop fuel x n 0 c gated) (k (Some c)))).

(** [Merge] (pipeline.go, the revision that takes [ctx]). *)
Fixpoint fanout (fuel : nat) (wg : wgid) (input : chanref) (out : chan) : proc :=
  match fuel with
  | O => OutOfFuel
  | Datatypes.S n =>
      Recv input (fun r =>
        match r with
        | None => WgDone wg Ret
        | Some v => Send (Some out) v (fanout n wg input out)
        end)
  end.

Fixpoint Merge_relays (fuel : nat) (x : ctxid) (wg : wgid) (chans : list chanref)
    (c : chan) (k : proc) : proc :=
  match chans with
  | [] => k
  | ch :: rest =>
      OrDone fuel x ch (fun gated =>
        Go (fanout fuel wg gated c) (Merge_relays fuel x wg rest c k))
  end.

Definition Merge (fuel : nat) (x : ctxid) (chans : list chanref)
    (k : chanref -> proc) : proc :=
  match chans with
  | [] => k None
  | [ch] => k ch
  | _ =>
      MakeChan (fun c =>
        WgNew (length chans) (fun wg =>
          Merge_relays fuel x wg chans c
            (Go (WgWait wg (Close (Some c) Ret)) (k (Some c)))))
  end.

(** The earlier revision of pipeline.go: [Merge] takes no token and has
    no shortcut, [Limit] sends without a [select]. *)
Module Earlier.

Fixpoint Limit_loop (fuel : nat) (n i : Z) (input : chanref) (out : chan) : proc :=
  match fuel with
  | O => OutOfFuel
  | Datatypes.S f =>
      if (i <? n)%Z then
        Recv input (fun r =>
          match r with
          | None => Close (Some out) Ret
          | Some v => Send (Some out) v (Limit_loop f n (i + 1)%Z input out)
          end)
      else Close (Some out) Ret
  end.

Definition Limit (fuel : nat) (x : ctxid) (n : Z) (input : chanref)
    (k : chanref -> proc) : proc :=
  MakeChan (fun c => Go (Limit_loop fuel n 0 input c) (k (Some c))).

Fixpoint Merge_relays (fuel : nat) (wg : wgid) (chans : list chanref) (c : chan)
    (k : proc) : proc :=
  match chans with
  | [] => k
  | ch :: rest => Go (fanout fuel wg ch c) (Merge_relays fuel wg rest c k)
  end.

Definition Merge (fuel : nat) (chans : list chanref) (k : chanref -> proc) : proc :=
  MakeChan (fun c =>
    WgNew (length chans) (fun wg =>
      Merge_relays fuel wg chans c
        (Go (WgWait wg (Close (Some c) Ret)) (k (Some c))))).

End Earlier.

(** *** Package async on the runtime (the revision with [deferFn]) *)

(** The deferred function of [Await] (future.go lines 22-27), run on
    every exit path with the results [v], [err] already set. *)
Definition Await_deferred (f : futp) (k : proc) : proc :=
  LoadFuture f (fun F =>
    match deferFn F with
    | Some c => Recv (Some c) (fun fn => Call (as_func fn) k)
    | None => k
    end).

(** [Future.Await] (future.go lines 21-37). *)
Definition Await (f : futp) (x : ctxid) (k : Z -> option error -> proc) : proc :=
  LoadFuture f (fun F =>
    SelectRecv x (result F)
      (CtxErr x (fun err => Await_deferred f (k 0%Z err)))
      (fun r =>
         match r with
         | Some (VResult val err) => Await_deferred f (k val err)
         | _ => Await_deferred f (k 0%Z None)
         end)).

(** [Exec] (future.go lines 39-53).  The closure captures [executed]; it
    reads the variable and never assigns it. *)
Definition Exec_next (x : ctxid) (fn : ctxid -> (Z -> option error -> proc) -> proc)
  : ctxid -> bool -> (value -> bool -> bool -> proc) -> proc :=
  fun _ executed k =>
    let ok := negb executed in
    if ok then fn x (fun val err => k (VResult val err) ok executed)
    else k (VResult 0%Z None) ok executed.

Definition Exec (fuel : nat) (x : ctxid)
    (fn : ctxid -> (Z -> option error -> proc) -> proc) (k : futp -> proc) : proc :=
  let executed := false in
  Generate fuel x (Exec_next x fn) executed (fun c =>
    NewFuture {| deferFn := None; result := c |} k).

(** The goroutine started by [ExecWithDefer] (future.go lines 73-81). *)
Definition relay (out : chan) (fn : option func) : proc :=
  match fn with
  | Some _ => Send (Some out) (VFunc fn) (Close (Some out) Ret)
  | None => Send (Some out) (VFunc (Some NoOp)) (Close (Some out) Ret)
  end.

(** [ExecWithDefer] (future.go lines 55-86). *)
Definition ExecWithDefer_next (dfn : chan)
    (fn : ctxid -> (option func -> Z -> option error -> proc) -> proc)
  : ctxid -> bool -> (value -> bool -> bool -> proc) -> proc :=
  fun ctx executed k =>
    let ok := negb executed in
    if negb ok then k (VResult 0%Z None) ok executed
    else
      fn ctx (fun deferFn val err =>
        Go (relay dfn deferFn) (k (VResult val err) ok executed)).

Definition ExecWithDefer (fuel : nat) (x : ctxid)
    (fn : ctxid -> (option func -> Z -> option error -> proc) -> proc)
    (k : futp -> proc) : proc :=
  let executed := false in
  MakeChan (fun dfn =>
    Generate fuel x (ExecWithDefer_next dfn fn) executed (fun c =>
      NewFuture {| deferFn := Some dfn; result := c |} k)).

(** [Then] (future.go lines 88-107). *)
Definition Then (fuel : nat) (x : ctxid) (first : futp)
    (next : ctxid -> Z -> (Z -> option error -> proc) -> proc)
    (k : futp -> proc) : proc :=
  LoadFuture first (fun F =>
    let deferFn := deferFn F in
    StoreDeferFn first None
      (Exec fuel x
         (fun ctx ret =>
            Await first ctx (fun t err =>
              match err with
              | None => next ctx t ret
              | Some _ => ret 0%Z err
              end))
         (fun future =>
            match deferFn with
            | Some _ => StoreDeferFn future deferFn (k future)
            | None => k future
            end))).

(** [ThenWithDefer] (future.go lines 109-138). *)
Definition ThenWithDefer (fuel : nat) (x : ctxid) (first : futp)
    (next : ctxid -> Z -> (option func -> Z -> option error -> proc) -> proc)
    (k : futp -> proc) : proc :=
  LoadFuture first (fun F =>
    let deferFn := deferFn F in
    StoreDeferFn first None
      (ExecWithDefer fuel x
         (fun ctx ret =>
            Await first ctx (fun t err =>
              match err with
              | None =>
                  next ctx t (fun dfn v err =>
                    ret (Some (Chain dfn deferFn)) v err)
              | Some _ => ret (Some (Chain None deferFn)) 0%Z err
              end))
         (fun future =>
            match deferFn with
            | Some _ => StoreDeferFn future deferFn (k future)
            | None => k future
            end))).

(** What the caller's goroutine has done when [Then] or [ThenWithDefer]
    returns [g] to the continuation [k]: [first] has lost its handoff
    channel and kept its result channel, no other existing future
    changed, [g] is new, and nothing was observed. *)
Definition composed (first : futp) (m : machine) (t : nat) (F : Future)
    (g : futp) (G : Future) (k : futp -> proc) (m' : machine) : Prop :=
  futs m' !! first = Some {| deferFn := None; result := result F |} /\
  (forall p : futp, p <> first -> p < length (futs m) -> futs m' !! p = futs m !! p) /\
  g = length (futs m) /\
  length (futs m') = S (length (futs m)) /\
  futs m' !! g = Some G /\
  tasks m' !! t = Some (k g) /\
  log m' = log m /\
  crashed m' = None.

(** The state after the first two statements, [deferFn := first.deferFn]
    and [first.deferFn = nil]: nothing has been built yet. *)
Definition cleared (first : futp) (m : machine) (F : Future) (m2 : machine) : Prop :=
  futs m2 = <[first := {| deferFn := None; result := result F |}]> (futs m) /\
  chans m2 = chans m /\
  length (tasks m2) = length (tasks m) /\
  log m2 = log m.

(** [ErrorIfDone] (pipeline.go): a [select] on [ctx.Done()] with a
    [default] case, returning [ctx.Err()] or [nil]; one look at the
    token, and [ctx.Err()] is [nil] exactly while [Done()] is open. *)
Definition ErrorIfDone (x : ctxid) (k : option error -> proc) : proc := CtxErr x k.

(** The item carried by a received value. *)
Definition as_int (v : value) : Z :=
  match v with VInt z => z | _ => 0%Z end.

(** [Accumulate] (pipeline.go): the loop runs in the caller's goroutine
    and ranges over the gate that [OrDone(ctx, input)] starts. *)
Fixpoint Accumulate_range (fuel : nat) (x : ctxid) (fn : Z -> Z -> Z * option error)
    (out : Z) (gated : chanref) (k : Z -> option error -> proc) : proc :=
  match fuel with
  | O => OutOfFuel
  | Datatypes.S n =>
      Recv gated (fun r =>
        match r with
        | None => ErrorIfDone x (fun err => k out err)
        | Some v =>
            let '(out, err) := fn out (as_int v) in
            match err with
            | Some e => k out (Some e)
            | None => Accumulate_range n x fn out gated k
            end
        end)
  end.

Definition Accumulate (fuel : nat) (x : ctxid) (fn : Z -> Z -> Z * option error)
    (initVal : Z) (input : chanref) (k : Z -> option error -> proc) : proc :=
  let out := initVal in
  OrDone fuel x input (fun gated => Accumulate_range fuel x fn out gated k).


(** *** Callers *)

(** A caller's function that returns at once: its invocation is
    observed, and its results are fixed. *)
Definition user_fn (id : nat) (val : Z) (err : option error)
  : ctxid -> (Z -> option error -> proc) -> proc :=
  fun _ ret => Emit (Called id) (ret val err).

Definition user_fn_defer (id : nat) (cleanup : option func) (val : Z)
    (err : option error)
  : ctxid -> (option func -> Z -> option error -> proc) -> proc :=
  fun _ ret => Emit (Called id) (ret cleanup val err).

Definition user_next_defer (id : nat) (cleanup : option func) (f : Z -> Z)
  : ctxid -> Z -> (option func -> Z -> option error -> proc) -> proc :=
  fun _ t ret => Emit (Called id) (ret cleanup (f t) None).

(** [f := Exec(ctx, fn); v, err := f.Await(ctx)]. *)
Definition caller_exec_await (fuel : nat) : proc :=
  Exec fuel 0 (user_fn 1 5%Z None) (fun f =>
    Await f 0 (fun v err => Emit (Returned v err) Ret)).

(** [f := ExecWithDefer(ctx, fn); v, err := f.Await(ctx)], where [fn]
    returns the cleanup 7. *)
Definition caller_defer_await (fuel : nat) : proc :=
  ExecWithDefer fuel 0 (user_fn_defer 1 (Some (UserFunc 7)) 5%Z None) (fun f =>
    Await f 0 (fun v err => Emit (Returned v err) Ret)).

(** [first := ExecWithDefer(ctx, fn1); g := ThenWithDefer(ctx, first, next);
    v, err := g.Await(ctx)], where [fn1] returns the cleanup 10 and [next]
    the cleanup 20. *)
Definition caller_then_with_defer (fuel : nat) : proc :=
  ExecWithDefer fuel 0 (user_fn_defer 1 (Some (UserFunc 10)) 5%Z None) (fun first =>
    ThenWithDefer fuel 0 first
      (user_next_defer 2 (Some (UserFunc 20)) (fun t => (t * 2)%Z))
      (fun g => Await g 0 (fun v err => Emit (Returned v err) Ret))).

(** [f := ExecWithDefer(ctx, fn)] awaited twice. *)
Definition caller_defer_await_twice (fuel : nat) : proc :=
  ExecWithDefer fuel 0 (user_fn_defer 1 (Some (UserFunc 7)) 5%Z None) (fun f =>
    Await f 0 (fun v err =>
      Emit (Returned v err) (Await f 0 (fun v err => Emit (Returned v err) Ret)))).

(** [out := Merge(ctx, ToChan(ctx, 1), ToChan(ctx, 2))], and the caller
    goes away without receiving. *)
Definition caller_merge_abandoned (fuel : nat) : proc :=
  ToChan fuel 0 [1%Z] (fun a =>
    ToChan fuel 0 [2%Z] (fun b =>
      Merge fuel 0 [a; b] (fun out => Ret))).

(** [out := Limit(ctx, 2, ToChan(ctx, 1, 2))], the caller goes away; with
    the later and with the earlier revision of [Limit]. *)
Definition caller_limit_abandoned (fuel : nat) : proc :=
  ToChan fuel 0 [1%Z; 2%Z] (fun a => Limit fuel 0 2 a (fun out => Ret)).

Definition caller_earlier_limit_abandoned (fuel : nat) : proc :=
  ToChan fuel 0 [1%Z; 2%Z] (fun a => Earlier.Limit fuel 0 2 a (fun out => Ret)).


(** *** Schedules *)

(** The caller awaits once; the generator goes round its loop while the
    caller is still inside [Await]. *)
Definition sched_exec_await : list action :=
  [Run 0; Run 0; Run 0; Run 0;   (* caller: make(chan), go, &Future, Await *)
   Run 1;                        (* generator: fn(ctx) *)
   Sync 1 0;                     (* the result is delivered *)
   Run 1;                        (* generator: next(ctx) once more *)
   Run 0; Run 0].                (* caller: deferred function, return *)

Definition sched_defer_await : list action :=
  [Run 0; Run 0; Run 0; Run 0; Run 0; (* caller: up to the select of Await *)
   Run 1; Run 1;                      (* generator: fn(ctx), go relay *)
   Sync 1 0;                          (* the result is delivered *)
   Run 0; Sync 2 0; Run 0;            (* caller: receives and runs the cleanup *)
   Run 2;                             (* relay: close(dfn) *)
   Run 1; Run 1;                      (* generator: fn(ctx) again, go relay *)
   Run 3].                            (* second relay: send on the closed dfn *)

(** The caller awaits once and returns; the generator is not scheduled
    again. *)
Definition sched_defer_await_returns : list action :=
  [Run 0; Run 0; Run 0; Run 0; Run 0; (* caller: up to the select of Await *)
   Run 1; Run 1;                      (* generator: fn(ctx), go relay *)
   Sync 1 0;                          (* the result is delivered *)
   Run 0; Sync 2 0; Run 0;            (* caller: receives and runs the cleanup *)
   Run 0].                            (* Await returns *)

(** The caller awaits twice; the second relay is not scheduled. *)
Definition sched_defer_await_twice : list action :=
  [Run 0; Run 0; Run 0; Run 0; Run 0; (* caller: up to the select of Await *)
   Run 1; Run 1;                      (* generator: fn(ctx), go relay *)
   Sync 1 0;                          (* the first result is delivered *)
   Run 0; Sync 2 0; Run 0; Run 0;     (* caller: cleanup, first Await returns *)
   Run 2;                             (* relay: close(dfn) *)
   Run 0;                             (* caller: second Await, select *)
   Run 1; Run 1;                      (* generator: fn(ctx) again, go relay *)
   Sync 1 0;                          (* the second result is delivered *)
   Run 0; Run 0;                      (* caller: receives on the closed dfn *)
   Run 0].                            (* caller: calls the nil function *)

Definition sched_then_with_defer : list action :=
  replicate 12 (Run 0)            (* caller: both futures built, Await g *)
  ++ [Run 1; Run 1;               (* first's generator: fn1, go relay *)
      Run 2; Sync 1 2; Run 2;     (* composed generator: first.Await *)
      Run 2; Run 2;               (* ... next, go relay of the closure *)
      Sync 2 0;                   (* composed result delivered to main *)
      Run 0; Sync 3 0;            (* main receives from g.deferFn *)
      Run 0; Run 0].              (* main runs what it got, returns *)


Definition sched_merge_abandoned : list action :=
  replicate 13 (Run 0)                  (* caller: two sources, Merge, return *)
  ++ [Sync 1 3; Sync 3 4;               (* item 1: source, gate, relay *)
      Sync 2 5; Sync 5 6;               (* item 2: source, gate, relay *)
      Cancel 0 "context canceled"%string;
      Run 1; Run 2;                     (* sources close *)
      Run 3; Run 3; Run 5; Run 5].      (* gates see Done and close *)

Definition sched_limit_abandoned : list action :=
  replicate 6 (Run 0)                   (* caller: source, Limit, return *)
  ++ [Sync 1 2; Sync 2 3;               (* item 1: source, gate, Limit *)
      Cancel 0 "context canceled"%string;
      Run 1; Run 1;                     (* source sees Done, closes *)
      Run 2; Run 2;                     (* gate sees Done, closes *)
      Run 3; Run 3].                    (* Limit sees Done, closes *)

Definition sched_earlier_limit_abandoned : list action :=
  replicate 4 (Run 0)                   (* caller: source, Limit, return *)
  ++ [Sync 1 2;                         (* item 1: source, Limit *)
      Cancel 0 "context canceled"%string;
      Run 1; Run 1].                    (* source sees Done, closes *)

(** *** Where the closure of [ThenWithDefer] can go

    In [caller_then_with_defer] channels are numbered in the order the
    caller makes them: 0 and 1 are [first]'s handoff and result channels,
    2 and 3 the composed future's.  Channel 2 is the one the composed
    relay sends the closure on; after [future.deferFn = deferFn] no field
    refers to it. *)
Definition abandoned : chan := 2.

(** A [func()] that does not contain [next]'s cleanup (number 20) and
    does not receive from the abandoned channel. *)

Fixpoint clean_func (f : func) : Prop :=
  match f with
  | UserFunc id => id <> 20
  | NoOp => True
  | Chain dfn d =>
      match dfn with Some g => clean_func g | None => True end /\ d <> Some abandoned
  end.

Definition clean_fopt (f : option func) : Prop :=
  match f with Some g => clean_func g | None => True end.

Definition clean_val (v : value) : Prop :=
  match v with VFunc f => clean_fopt f | _ => True end.

Definition clean_recv (v : option value) : Prop :=
  match v with Some u => clean_val u | None => True end.

(** What the future [first] looks like at any time. *)
Definition first_shape (F : Future) : Prop :=
  result F = Some 1 /\ (deferFn F = None \/ deferFn F = Some 0).

(** [confined p w]: the program [p] never runs cleanup 20, receives from
    no abandoned channel, and sends a [func()] that is not clean only on
    the abandoned channel.  The caller is followed with the exact number
    of channels and the exact heap ([w = Some (n, h)]); the other
    goroutines ([w = None]) make no channel, store nothing, and load
    only [first]. *)
Fixpoint confined (p : proc) (w : option (nat * list Future)) {struct p} : Prop :=
  match p with
  | Ret | OutOfFuel => True
  | Emit e k => e <> Cleaned 20 /\ confined k w
  | MakeChan k =>
      match w with
      | Some (n, h) => confined (k n) (Some (S n, h))
      | None => False
      end
  | Send c v k => (c = Some abandoned \/ clean_val v) /\ confined k w
  | Recv c k => c <> Some abandoned /\ forall v, clean_recv v -> confined (k v) w
  | SelectSend _ c v kd ks => (c = Some abandoned \/ clean_val v) /\ confined kd w /\ confined ks w
  | SelectRecv _ c kd kr =>
      c <> Some abandoned /\ confined kd w /\ forall v, clean_recv v -> confined (kr v) w
  | Close _ k => confined k w
  | Go q k => confined q None /\ confined k w
  | CtxErr _ k => forall e, confined (k e) w
  | NewFuture f k =>
      match w with
      | Some (n, h) => (h = [] -> first_shape f) /\ confined (k (length h)) (Some (n, h ++ [f]))
      | None => False
      end
  | LoadFuture p k =>
      match w with
      | Some (n, h) => exists F, h !! p = Some F /\ confined (k F) w
      | None => p = 0 /\ forall F, first_shape F -> confined (k F) None
      end
  | StoreDeferFn p c k =>
      match w with
      | Some (n, h) =>
          (p = 0 -> c = None \/ c = Some 0) /\
          exists F, h !! p = Some F /\
            confined k (Some (n, <[p := {| deferFn := c; result := result F |}]> h))
      | None => False
      end
  | Call f k => clean_fopt f /\ confined k w
  | WgNew _ _ | WgDone _ _ | WgWait _ _ => False
  end.

(** The caller is goroutine 0. *)
Definition view (m : machine) (t : nat) : option (nat * list Future) :=
  if t =? 0 then Some (length (chans m), futs m) else None.

(** The invariant of every reachable state. *)
Definition Confined (m : machine) : Prop :=
  (forall e, e ∈ log m -> e <> Cleaned 20) /\
  (forall t p, tasks m !! t = Some p -> confined p (view m t)) /\
  (forall F, futs m !! 0 = Some F -> first_shape F) /\
  0 < length (tasks m).

(** Goroutine [t] takes part in the action. *)
Definition involves (a : action) (t : nat) : Prop :=
  match a with
  | Run u | RunClosed u => u = t
  | Sync s r => s = t \/ r = t
  | Cancel _ _ => False
  end.

End Rt.

(** ** More of package pipeline, in the sequential reading *)
Module Stages.

(** [Filter] (pipeline.go): a [Collector] whose rule reads until the
    first accepted item; at close it answers [ok = false]. *)
Fixpoint Filter_collect {T : Type} (empty : T) (filter : T -> bool) (input : list T)
  : T * bool * list T :=
  match input with
  | [] => (empty, false, [])
  | v :: rest =>
      if filter v then (v, true, rest) else Filter_collect empty filter rest
  end.

Definition Filter {T : Type} (empty : T) (fuel : nat) (filter : T -> bool)
    (input : list T) : Seq.trace T :=
  Seq.Collector fuel (Filter_collect empty filter) input.

(** [Limit] (pipeline.go, the revision with [n == 0]): the loop counts
    the deliveries in the [int] variable [i], of width [w], and tests
    [i >= n] after each one.  [None] is the nil channel. *)
Fixpoint Limit_range {T : Type} (w n i : Z) (items : list T) : list T :=
  match items with
  | [] => []
  | v :: rest =>
      let i := Int.wrap w (i + 1) in
      v :: (if (i >=? n)%Z then [] else Limit_range w n i rest)
  end.

Definition Limit {T : Type} (w n : Z) (input : list T) : option (Seq.trace T) :=
  if (n =? 0)%Z then None
  else Some (Limit_range w n 0 (Seq.OrDone input), true).

(** [Limit] in the earlier revision:
    [for i := 0; i < n; i++ { v, ok := <-in; if !ok { return }; out <- v }]. *)
Fixpoint Earlier_Limit_for {T : Type} (w n i : Z) (items : list T) : list T :=
  if (i <? n)%Z then
    match items with
    | [] => []
    | v :: rest => v :: Earlier_Limit_for w n (Int.wrap w (i + 1)) rest
    end
  else [].

Definition Earlier_Limit {T : Type} (w n : Z) (input : list T) : Seq.trace T :=
  (Earlier_Limit_for w n 0 input, true).

(** [Unroll] (source.go): every slice received is sent element by
    element. *)
Fixpoint Unroll_arr {T : Type} (arr : list T) : list T :=
  match arr with
  | [] => []
  | val :: rest => val :: Unroll_arr rest
  end.

Fixpoint Unroll_range {T : Type} (input : list (list T)) : list T :=
  match input with
  | [] => []
  | arr :: rest => Unroll_arr arr ++ Unroll_range rest
  end.

Definition Unroll {T : Type} (input : list (list T)) : list T :=
  Unroll_range (Seq.OrDone input).

(** One round of the loop of [Tee] (pipeline.go) for an item [v]: two
    [select] statements over [ctx.Done()], [out1 <- v] and [out2 <- v].
    The case taken is the scheduler's pick; it can be [Done] only when
    the token has fired, and a send only on a channel that is not nil.
    The first [select] sets the channel it sent on to nil. *)
Inductive pick : Type := Done | Out1 | Out2.

Definition ready (fired : bool) (out1 out2 : option nat) (p : pick) : bool :=
  match p with
  | Done => fired
  | Out1 => match out1 with Some _ => true | None => false end
  | Out2 => match out2 with Some _ => true | None => false end
  end.

(** The outputs that received [v] in this round, in the order of the
    sends; [None] when a pick is not possible. *)
Definition Tee_round (c1 c2 : nat) (fired1 fired2 : bool) (p1 p2 : pick)
  : option (list nat) :=
  let out1 := Some c1 in
  let out2 := Some c2 in
  if ready fired1 out1 out2 p1 then
    let '(out1, out2, sent) :=
      match p1 with
      | Done => (out1, out2, [])
      | Out1 => (None, out2, [c1])
      | Out2 => (out1, None, [c2])
      end in
    if ready fired2 out1 out2 p2 then
      match p2, out1, out2 with
      | Done, _, _ => Some sent
      | Out1, Some c, _ => Some (sent ++ [c])
      | Out2, _, Some c => Some (sent ++ [c])
      | _, _, _ => None
      end
    else None
  else None.

End Stages.

(** ** Every schedule of a program

    The actions a machine can take are among finitely many candidates,
    so a property of every reachable state of a program that comes to
    rest can be checked by trying them all. *)
Module Sched.

Import Rt.

(** What [ctx.Err()] returns for the contexts of package [context]. *)
Definition std_errs : list error :=
  ["context canceled"%string; "context deadline exceeded"%string].

Definition std_action (a : action) : Prop :=
  match a with
  | Cancel _ e => e ∈ std_errs
  | _ => True
  end.

Definition no_cancel (a : action) : Prop :=
  match a with
  | Cancel _ _ => False
  | _ => True
  end.

(** The steps of the goroutines, alone or in pairs. *)
Definition moves (m : machine) : list action :=
  let ts := seq 0 (length (tasks m)) in
  (Run <$> ts) ++ (RunClosed <$> ts) ++ (s ← ts; (Sync s <$> ts)).

(** The same and the cancellations. *)
Definition candidates (m : machine) : list action :=
  moves m ++ (x ← seq 0 (length (ctxs m)); (Cancel x <$> std_errs)).

(** [P] holds in [m] and in every state reached from it by the actions
    [acts] offers, and after at most [d] of them none is possible. *)
Fixpoint explore (acts : machine -> list action) (P : machine -> bool) (d : nat)
    (m : machine) : bool :=
  P m &&
  match d with
  | O => forallb (refused m) (acts m)
  | Datatypes.S d =>
      forallb (fun a => match step m a with
                        | Some m' => explore acts P d m'
                        | None => true
                        end) (acts m)
  end.

#[global] Instance obs_eq_dec : EqDecision obs.
Proof. solve_decision. Defined.

(** In a log, oldest first: no [Returned] comes before the first [o]. *)
Fixpoint returns_follow (o : obs) (l : list obs) : bool :=
  match l with
  | [] => true
  | x :: rest =>
      if bool_decide (x = o) then true
      else match x with
           | Returned _ _ => false
           | _ => returns_follow o rest
           end
  end.

Fixpoint at_most_once (o : obs) (l : list obs) : bool :=
  match l with
  | [] => true
  | x :: rest =>
      if bool_decide (x = o) then negb (bool_decide (o ∈ rest))
      else at_most_once o rest
  end.

End Sched.

(** ** Package async, the revision without [deferFn]

    (src/unnamed/part_002, second document.)  [Exec] and [Then] are
    [pipeline.Map] over a channel. *)
Module Async0.

Import Rt.

(** The [futureResult[T]] carried by a received value. *)
Definition as_result (v : value) : Z * option error :=
  match v with
  | VResult val err => (val, err)
  | _ => (0%Z, None)
  end.

(** [pipeline.Map] (pipeline.go) with a function that has effects.  The
    operand [fn(v)] of [out <- fn(v)] is evaluated on entering the inner
    [select], before a case is chosen. *)
Fixpoint Map_loop (fuel : nat) (x : ctxid) (fn : value -> (value -> proc) -> proc)
    (out : chan) (input : chanref) : proc :=
  match fuel with
  | O => OutOfFuel
  | Datatypes.S n =>
      SelectRecv x input
        (Close (Some out) Ret)
        (fun r =>
           match r with
           | None => Close (Some out) Ret
           | Some v =>
               fn v (fun w =>
                 SelectSend x (Some out) w
                   (Map_loop n x fn out input)
                   (Map_loop n x fn out input))
           end)
  end.

Definition Map (fuel : nat) (x : ctxid) (mapFn : value -> (value -> proc) -> proc)
    (input : chanref) (k : chanref -> proc) : proc :=
  MakeChan (fun c => Go (Map_loop fuel x mapFn c input) (k (Some c))).

(** [Future.Await].  [Future[T]] has the one field [result]; on the heap
    of the runtime its [deferFn] is [nil] and is not read. *)
Definition Await (f : futp) (x : ctxid) (k : Z -> option error -> proc) : proc :=
  LoadFuture f (fun F =>
    SelectRecv x (result F)
      (CtxErr x (fun err => k 0%Z err))
      (fun r =>
         let '(val, err) :=
           match r with
           | Some v => as_result v
           | None => (0%Z, None)
           end in
         k val err)).

(** [Exec]: [Map] of [fn] over [ToChan(ctx, ctx)].  The item of that
    channel is the context, carried as its number. *)
Definition Exec (fuel : nat) (x : ctxid)
    (fn : ctxid -> (Z -> option error -> proc) -> proc) (k : futp -> proc) : proc :=
  ToChan fuel x [Z.of_nat x] (fun input =>
    Map fuel x
      (fun ctx ret =>
         fn (Z.to_nat (as_int ctx)) (fun val err => ret (VResult val err)))
      input
      (fun c => NewFuture {| deferFn := None; result := c |} k)).

(** [Then]: [Map] over [first.result]; [next] is called only when the
    result carries no error. *)
Definition Then (fuel : nat) (x : ctxid) (first : futp)
    (next : ctxid -> Z -> (Z -> option error -> proc) -> proc)
    (k : futp -> proc) : proc :=
  LoadFuture first (fun F =>
    Map fuel x
      (fun t ret =>
         let '(val, err) := as_result t in
         match err with
         | None => next x val (fun v e => ret (VResult v e))
         | Some _ => ret (VResult 0%Z err)
         end)
      (result F)
      (fun c => NewFuture {| deferFn := None; result := c |} k)).

(** *** Callers *)

Definition user_next (id : nat) (f : Z -> Z)
  : ctxid -> Z -> (Z -> option error -> proc) -> proc :=
  fun _ t ret => Emit (Called id) (ret (f t) None).

(** [f := Exec(ctx, fn); v, err := f.Await(ctx)], where [fn] returns
    [(5, nil)]. *)
Definition caller_exec_await (fuel : nat) : proc :=
  Exec fuel 0 (user_fn 1 5%Z None) (fun f =>
    Await f 0 (fun v err => Emit (Returned v err) Ret)).

(** [first := Exec(ctx, fn); g := Then(ctx, first, next);
    v, err := g.Await(ctx)], where [next] doubles its argument. *)
Definition caller_then_await (fuel : nat) (val : Z) (err : option error) : proc :=
  Exec fuel 0 (user_fn 1 val err) (fun first =>
    Then fuel 0 first (user_next 2 (fun t => (t * 2)%Z)) (fun g =>
      Await g 0 (fun v err => Emit (Returned v err) Ret))).

(** The caller awaits; nothing is cancelled. *)
Definition sched_exec_await : list action :=
  replicate 6 (Run 0)                   (* caller: ToChan, Map, &Future, Await *)
  ++ [Sync 1 2;                         (* the context goes to Map *)
      Run 2;                            (* fn(ctx) *)
      Sync 2 0;                         (* the result is delivered *)
      Run 0].                           (* Await returns *)

Definition sched_then_await : list action :=
  replicate 10 (Run 0)                  (* caller: Exec, Then, Await *)
  ++ [Sync 1 2; Run 2;                  (* fn(ctx) *)
      Sync 2 3; Run 3;                  (* next(ctx, t) *)
      Sync 3 0;                         (* the result is delivered *)
      Run 0].                           (* Await returns *)

Definition sched_then_await_failed : list action :=
  replicate 10 (Run 0)
  ++ [Sync 1 2; Run 2;                  (* fn(ctx) fails *)
      Sync 2 3;                         (* the error goes on, next is not run *)
      Sync 3 0;
      Run 0].

End Async0.

(** *** [Then], read sequentially

    [Then] as a function on what the result channel of [first] delivers,
    with the effects of the functions it is given threaded through the
    caller's state [S].  The reading is that of [Seq], a token that has
    not fired; with a fired token every [select] of [Map] may take its
    [ctx.Done()] case, what is delivered is the scheduler's choice, and
    the reading gives no answer ([None]). *)
Module Async0Seq.

Definition futureResult (T : Type) : Type := (T * option Seq.error)%type.

(** [pipeline.Map] with a function that has effects: one call per item,
    in the order of the items. *)
Fixpoint Map {S T V : Type} (mapFn : T -> S -> V * S) (input : list T) (s : S)
  : list V * S :=
  match input with
  | [] => ([], s)
  | t :: rest =>
      let '(v, s) := mapFn t s in
      let '(vs, s) := Map mapFn rest s in
      (v :: vs, s)
  end.

(** [Future[T]]: what is still to be received on [result]. *)
Definition Future (T : Type) : Type := Seq.trace (futureResult T).

(** The function [Then] maps over [first.result]: [next] is called only
    when the result carries no error. *)
Definition Then_fn {S T V : Type} (zero : V) (ctx : Seq.Context)
    (next : Seq.Context -> T -> S -> futureResult V * S)
    (t : futureResult T) (s : S) : futureResult V * S :=
  match snd t with
  | None => next ctx (fst t) s
  | Some e => ((zero, Some e), s)
  end.

(** (A future made by [Exec] holds one result; with more, the calls of
    two chained stages could interleave, which this reading does not
    show.) *)
Definition Then {S T V : Type} (zero : V) (ctx : Seq.Context) (first : Future T)
    (next : Seq.Context -> T -> S -> futureResult V * S) (s : S)
  : option (Future V * S) :=
  if Seq.Done ctx then None
  else
    let '(results, s) := Map (Then_fn zero ctx next) (fst first) s in
    Some ((results, snd first), s).

End Async0Seq.

(** * Properties *)

(** ** Wrapping arithmetic *)
Section IntFacts.

Lemma pow_split (w : Z) : (0 < w)%Z -> (2 ^ w = 2 * 2 ^ (w - 1))%Z.
Proof.
  intros Hw. replace w with (Z.succ (w - 1)) at 1 by lia.
  rewrite Z.pow_succ_r by lia. reflexivity.
Qed.

Lemma wrap_in_range (w z : Z) :
  (0 < w)%Z -> Int.in_range w z -> Int.wrap w z = z.
Proof.
  unfold Int.in_range, Int.min_int, Int.max_int, Int.wrap. intros Hw Hz.
  pose proof (pow_split w Hw) as Hp.
  rewrite Z.mod_small; lia.
Qed.


End IntFacts.

(** ** Range *)
Section RangeFacts.

Import Seq.

Variable w : Z.
Hypothesis w_pos : (0 < w)%Z.





End RangeFacts.

Section RangeClaims.

Import Seq.





(** The ranges of the specification's examples, item by item. *)
Example Range_10_99 :
  Range 64 100 10 99 [] = Output (Z.of_nat <$> seq 10 89) true.
Proof. vm_compute. reflexivity. Qed.

Example Range_99_10 :
  Range 64 100 99 10 [] = Output (rev (Z.of_nat <$> seq 11 89)) true.
Proof. vm_compute. reflexivity. Qed.




(** C7: [Range] panics whenever [from] differs from [to] and the sign of
    the supplied step does not match the direction: ascending with
    [step <= 0], descending with [step >= 0]. *)
Theorem Range_panics_on_step_sign (w : Z) (fuel : nat) (from to step : Z)
    (rest : list Z) :
  from <> to ->
  (from < to /\ step <= 0 \/ to < from /\ 0 <= step)%Z ->
  exists msg : string, Range w fuel from to (step :: rest) = Panic msg.
Proof.
  intros Hne [[Hlt Hs]|[Hlt Hs]]; unfold Range; simpl.
  - destruct (Z.ltb_spec from to); [|lia].
    destruct (Z.leb_spec step 0); [|lia]. eauto.
  - destruct (Z.ltb_spec from to); [lia|].
    rewrite Z.gtb_ltb. destruct (Z.ltb_spec to from); [|lia].
    rewrite Z.geb_leb. destruct (Z.leb_spec 0 step); [|lia]. eauto.
Qed.

Lemma Range_panics_on_step_sign_witness :
  (exists msg : string, Range 64 100 10 99 [(- 5)%Z] = Panic msg) /\
  (exists msg : string, Range 64 100 10 (- 99) [5%Z] = Panic msg).
Proof.
  split.
  - apply (Range_panics_on_step_sign 64 100 10 99 (- 5) []); [lia | left; lia].
  - apply (Range_panics_on_step_sign 64 100 10 (- 99) 5 []); [lia | right; lia].
Defined.

End RangeClaims.

(** ** Accumulate *)
Section AccumulateFacts.

Import Seq.

Context {T V : Type}.
Variable fn : V -> T -> V * option error.

Lemma OrDone_id (input : list T) : OrDone input = input.
Proof. unfold OrDone, Map. apply list_fmap_id. Qed.




End AccumulateFacts.

Section AccumulateClaims.

Import Seq.



End AccumulateClaims.

(** ** Collector *)
Section CollectorFacts.

Import Seq.

Context {T : Type}.

Lemma sliceCollector_loop_take (n : nat) :
  forall r input : list T,
    sliceCollector_loop n r input
    = (r ++ take n input, 0 <? length (r ++ take n input), drop n input).
Proof.
  induction n as [|n IH]; intros r input; simpl.
  - by rewrite app_nil_r.
  - destruct input as [|v rest]; simpl.
    + by rewrite app_nil_r.
    + rewrite IH. by rewrite <- app_assoc.
Qed.

Lemma sliceCollector_take (k : nat) (input : list T) :
  sliceCollector k input = (take k input, 0 <? length (take k input), drop k input).
Proof. unfold sliceCollector. by rewrite sliceCollector_loop_take. Qed.

Lemma batch_sizes_step (k L : nat) :
  0 < k -> k <= L -> batch_sizes k L = k :: batch_sizes k (L - k).
Proof.
  intros Hk Hle. unfold batch_sizes.
  assert (Hd : Nat.div L k = S (Nat.div (L - k) k)).
  { replace L with ((L - k) + 1 * k) at 1 by lia.
    rewrite Nat.div_add by lia. lia. }
  assert (Hm : Nat.modulo L k = Nat.modulo (L - k) k).
  { replace L with ((L - k) + 1 * k) at 1 by lia.
    by rewrite Nat.Div0.mod_add. }
  rewrite Hd, Hm. reflexivity.
Qed.

Lemma batch_sizes_small (k L : nat) :
  0 < L -> L < k -> batch_sizes k L = [L].
Proof.
  intros HL Hlt. unfold batch_sizes.
  rewrite Nat.div_small, Nat.mod_small by lia.
  destruct (Nat.eqb_spec L 0); [lia|]. reflexivity.
Qed.

Lemma batch_sizes_0 (k : nat) : batch_sizes k 0 = [].
Proof.
  unfold batch_sizes. by rewrite Nat.Div0.div_0_l, Nat.Div0.mod_0_l.
Qed.

Lemma batch_sizes_length (k L : nat) :
  0 < k -> length (batch_sizes k L) = Nat.div (L + k - 1) k.
Proof.
  intros Hk. unfold batch_sizes.
  rewrite length_app, length_replicate.
  pose proof (Nat.div_mod_eq L k) as HL.
  pose proof (Nat.mod_upper_bound L k ltac:(lia)) as Hm.
  set (q := Nat.div L k) in *. set (r := Nat.modulo L k) in *.
  destruct (Nat.eqb_spec r 0) as [H0|Hn]; simpl.
  - replace (L + k - 1) with ((k - 1) + q * k) by lia.
    rewrite Nat.div_add by lia. rewrite (Nat.div_small (k - 1) k) by lia. lia.
  - replace (L + k - 1) with ((r - 1) + (q + 1) * k) by lia.
    rewrite Nat.div_add by lia. rewrite (Nat.div_small (r - 1) k) by lia. lia.
Qed.

Lemma Collector_loop_batches (k : nat) (Hk : 0 < k) (fuel : nat) :
  forall input : list T,
    length input < fuel ->
    exists out : list (list T),
      Collector_loop fuel (sliceCollector k) input = (out, true) /\
      length <$> out = batch_sizes k (length input) /\
      concat out = input.
Proof.
  induction fuel as [|fuel IH]; intros input Hfuel; [lia|].
  simpl. rewrite sliceCollector_take.
  destruct input as [|v rest].
  - exists []. rewrite take_nil, drop_nil. simpl. repeat split.
    by rewrite batch_sizes_0.
  - assert (HL : 0 < length (v :: rest)) by (simpl; lia).
    remember (v :: rest) as input eqn:Hin. clear Hin v rest.
    assert (Hpos : (0 <? length (take k input)) = true).
    { apply Nat.ltb_lt. rewrite length_take. lia. }
    rewrite Hpos.
    destruct (IH (drop k input)) as (out & Hrun & Hsz & Hcat).
    { rewrite length_drop. lia. }
    rewrite Hrun. exists (take k input :: out). repeat split.
    + rewrite fmap_cons, Hsz, length_take, length_drop.
      destruct (Nat.le_gt_cases k (length input)) as [Hle|Hgt].
      * rewrite (batch_sizes_step k _ Hk Hle). f_equal. lia.
      * rewrite (batch_sizes_small k (length input)) by lia.
        replace (length input - k) with 0 by lia.
        rewrite batch_sizes_0. f_equal. lia.
    + simpl. rewrite Hcat. apply take_drop.
Qed.

(** C8: for the fixed-size batch rule of size [k > 0] applied by
    [Collector] to an input of length [L] with no cancellation, the output
    consists of exactly [ceil (L / k)] aggregates, each of size [k] except
    possibly the last, whose size is [L mod k] when that is nonzero; the
    aggregates are the input in order, and the output then closes. *)
Theorem Collector_batching (k : nat) (input : list T) (fuel : nat) :
  0 < k -> length input < fuel ->
  exists out : list (list T),
    Collector fuel (sliceCollector k) input = (out, true) /\
    length out = Nat.div (length input + k - 1) k /\
    length <$> out
    = replicate (Nat.div (length input) k) k
      ++ (if Nat.modulo (length input) k =? 0 then []
          else [Nat.modulo (length input) k]) /\
    concat out = input.
Proof.
  intros Hk Hfuel. unfold Collector. rewrite OrDone_id.
  destruct (Collector_loop_batches k Hk fuel input Hfuel) as (out & Hrun & Hsz & Hcat).
  exists out. repeat split; [done| |done|done].
  rewrite <- (length_fmap length out), Hsz. by apply batch_sizes_length.
Qed.

End CollectorFacts.

Section CollectorClaims.

Import Seq.

Lemma Collector_batching_witness :
  exists out : list (list Z),
    Collector 8 (sliceCollector 3) [1; 2; 3; 4; 5; 6; 7]%Z = (out, true) /\
    length out = 3 /\
    length <$> out = [3; 3; 1] /\
    concat out = [1; 2; 3; 4; 5; 6; 7]%Z.
Proof.
  apply (Collector_batching 3 [1; 2; 3; 4; 5; 6; 7]%Z 8); simpl; lia.
Defined.

End CollectorClaims.

(** ** The runtime *)
Section RuntimeFacts.

Import Rt.

Lemma step_own (m : machine) (t : nat) :
  crashed m = None -> step m (Run t) = run_task t m.
Proof. intros H. unfold step. by rewrite H. Qed.

Lemma refused_None (m : machine) (a : action) :
  refused m a = true -> step m a = None.
Proof. unfold refused. by destruct (step m a). Qed.

Lemma step_Run_out_of_range (m : machine) (t : nat) :
  length (tasks m) <= t -> step m (Run t) = None /\ step m (RunClosed t) = None.
Proof.
  intros Hge. unfold step, run_task, run_closed_case.
  rewrite (lookup_ge_None_2 (tasks m) t Hge). by destruct (crashed m).
Qed.

Lemma step_Sync_out_of_range (m : machine) (s r : nat) :
  length (tasks m) <= s \/ length (tasks m) <= r -> step m (Sync s r) = None.
Proof.
  intros Hge. unfold step, sync. destruct (crashed m); [done|].
  destruct (s =? r); [done|].
  destruct Hge as [Hge|Hge]; rewrite (lookup_ge_None_2 (tasks m) _ Hge); [done|].
  by destruct (tasks m !! s).
Qed.

(** A state in which no goroutine can step and every token has fired
    admits no action at all: whoever waits there waits forever. *)
Lemma quiescent_deadlocked (m : machine) :
  quiescent m = true ->
  (forall x : ctxid, x < length (ctxs m) -> fired m x = true) ->
  forall a : action, step m a = None.
Proof.
  unfold quiescent. intros Hq Hfired a.
  apply andb_prop in Hq as [Hrun Hsync].
  rewrite List.forallb_forall in Hrun, Hsync.
  destruct a as [t|t|s r|x e].
  - destruct (Nat.lt_ge_cases t (length (tasks m))) as [Hlt|Hge].
    + specialize (Hrun t). rewrite List.in_seq in Hrun.
      apply andb_prop in Hrun as [H1 _]; [|lia]. by apply refused_None.
    + by apply step_Run_out_of_range.
  - destruct (Nat.lt_ge_cases t (length (tasks m))) as [Hlt|Hge].
    + specialize (Hrun t). rewrite List.in_seq in Hrun.
      apply andb_prop in Hrun as [_ H2]; [|lia]. by apply refused_None.
    + by apply step_Run_out_of_range.
  - destruct (Nat.lt_ge_cases s (length (tasks m))) as [Hs|Hs];
      [|apply step_Sync_out_of_range; by left].
    destruct (Nat.lt_ge_cases r (length (tasks m))) as [Hr|Hr];
      [|apply step_Sync_out_of_range; by right].
    specialize (Hsync s). rewrite List.in_seq in Hsync.
    specialize (Hsync ltac:(lia)). rewrite List.forallb_forall in Hsync.
    specialize (Hsync r). rewrite List.in_seq in Hsync.
    apply refused_None. apply Hsync. lia.
  - unfold step, cancel. destruct (crashed m); [done|].
    destruct (ctxs m !! x) as [[e'|]|] eqn:Hx; [done| |done].
    assert (Hlt : x < length (ctxs m)) by (by eapply lookup_lt_Some).
    specialize (Hfired x Hlt). unfold fired in Hfired. by rewrite Hx in Hfired.
Qed.

Lemma tasks_set_task_other (m : machine) (t u : nat) (p : proc) :
  u <> t -> tasks (set_task u p m) !! t = tasks m !! t.
Proof. intros Hne. simpl. by apply list_lookup_insert_ne. Qed.

Lemma tasks_add_task_old (m : machine) (t : nat) (p q : proc) :
  tasks m !! t = Some p -> tasks (add_task q m) !! t = Some p.
Proof. intros Ht. simpl. by apply lookup_app_l_Some. Qed.

(** An action leaves alone the goroutines that take no part in it. *)
Lemma step_other_task (m m' : machine) (a : action) (t : nat) (p : proc) :
  step m a = Some m' -> ~ involves a t ->
  tasks m !! t = Some p -> tasks m' !! t = Some p.
Proof.
  unfold step. destruct (crashed m); [done|].
  destruct a as [u|u|s r|x e]; simpl; intros Hstep Hne Ht.
  - unfold run_task in Hstep.
    destruct (tasks m !! u) as [q|]; [|done].
    destruct q as [| |e k|k|[c|] v k|[c|] k|y c v kd ks|y c kd kr|[c|] k|q k|y k
                   |f k|f k|f c k|[[id| |dfn d]|] k|n k|w k|w k];
      repeat match type of Hstep with
             | context [match ?o with _ => _ end] => destruct o
             end;
      simplify_eq; simpl;
      rewrite ?list_lookup_insert_ne by done;
      try done; by apply lookup_app_l_Some.
  - unfold run_closed_case in Hstep.
    destruct (tasks m !! u) as [q|]; [|done].
    destruct q; try done;
      repeat match type of Hstep with
             | context [match ?o with _ => _ end] => destruct o
             end;
      simplify_eq; simpl; rewrite ?list_lookup_insert_ne by done; done.
  - unfold sync in Hstep.
    repeat match type of Hstep with
           | context [match ?o with _ => _ end] => destruct o
           | context [if ?b then _ else _] => destruct b
           end; simplify_eq; simpl.
    rewrite !list_lookup_insert_ne by tauto. done.
  - unfold cancel in Hstep.
    repeat match type of Hstep with
           | context [match ?o with _ => _ end] => destruct o
           end; simplify_eq; done.
Qed.

(** A send inside a [select] with [ctx.Done()] gets out once the token
    has fired. *)
Lemma raced_send_escapes (m : machine) (t : nat) (x : ctxid) (c : chanref)
    (v : value) (kdone ksent : proc) :
  crashed m = None ->
  tasks m !! t = Some (SelectSend x c v kdone ksent) ->
  fired m x = true ->
  step m (Run t) = Some (set_task t kdone m).
Proof.
  intros Hc Ht Hf. rewrite step_own by done. unfold run_task. by rewrite Ht, Hf.
Qed.

(** A plain send on an open channel does not move on its own, whatever
    the token does; only a receiver frees it. *)
Lemma plain_send_waits (m m' : machine) (a : action) (t : nat) (c : chan)
    (v : value) (k : proc) :
  tasks m !! t = Some (Send (Some c) v k) ->
  chans m !! c = Some false ->
  step m a = Some m' ->
  (forall r : nat, a <> Sync t r) ->
  tasks m' !! t = Some (Send (Some c) v k).
Proof.
  intros Ht Hopen Hstep Hsync.
  assert (Hdec : involves a t \/ ~ involves a t).
  { destruct a as [u|u|s r|x e]; simpl.
    - destruct (decide (u = t)); tauto.
    - destruct (decide (u = t)); tauto.
    - destruct (decide (s = t)), (decide (r = t)); tauto.
    - tauto. }
  destruct Hdec as [Hin|Hout]; [|by eapply step_other_task].
  exfalso. unfold step in Hstep. destruct (crashed m); [done|].
  destruct a as [u|u|s r|x e]; simpl in Hin; subst.
  - unfold run_task in Hstep. by rewrite Ht, Hopen in Hstep.
  - unfold run_closed_case in Hstep. by rewrite Ht in Hstep.
  - destruct Hin as [->| ->]; [by eapply Hsync|].
    unfold sync in Hstep. destruct (s =? t); [done|].
    rewrite Ht in Hstep. destruct (tasks m !! s) as [ps|]; [|done].
    by destruct (sender ps) as [[[? ?] ?]|].
  - done.
Qed.

End RuntimeFacts.

Ltac machine_simpl :=
  cbn [Rt.tasks Rt.futs Rt.chans Rt.wgs Rt.ctxs Rt.log Rt.crashed
       Rt.set_task Rt.set_futs Rt.set_chans Rt.set_wgs Rt.set_ctxs
       Rt.add_task Rt.add_log Rt.crash].

Ltac solve_length :=
  repeat (rewrite length_insert || rewrite length_app); simpl; lia.

(** One step of goroutine [t] on its own, its program being in view. *)
Ltac own_step :=
  rewrite step_own by done; unfold Rt.run_task at 1; machine_simpl;
  rewrite ?list_lookup_insert_eq by solve_length.

(** ** Merge *)
Section MergeClaims.

Import Rt.

(** C4: [Merge] called with zero input channels yields the nil channel,
    and called with exactly one input channel it returns that very
    channel; in both cases the call executes no instruction, so no
    channel is made and no goroutine is started. *)
Theorem Merge_zero_one (fuel : nat) (x : ctxid) (ch : chanref)
    (k : chanref -> proc) :
  Merge fuel x [] k = k None /\ Merge fuel x [ch] k = k ch.
Proof. split; reflexivity. Qed.

(** With two or more inputs the first instruction makes a fresh channel. *)
Lemma Merge_many (fuel : nat) (x : ctxid) (a b : chanref) (rest : list chanref)
    (k : chanref -> proc) :
  exists body : chan -> proc, Merge fuel x (a :: b :: rest) k = MakeChan body.
Proof. eexists. reflexivity. Qed.

(** The earlier revision, which takes no token, has no such shortcut: it
    makes a channel whatever the number of inputs. *)
Lemma Earlier_Merge_makes_chan (fuel : nat) (chans : list chanref)
    (k : chanref -> proc) :
  exists body : chan -> proc, Earlier.Merge fuel chans k = MakeChan body.
Proof. eexists. reflexivity. Qed.

End MergeClaims.

(** ** Then and ThenWithDefer: the cleanup handoff moves *)
Section ThenFacts.

Import Rt.

Variables (fuel : nat) (x : ctxid) (first : futp) (m : machine) (t : nat) (F : Future).
Hypothesis not_crashed : crashed m = None.
Hypothesis first_is_F : futs m !! first = Some F.

Lemma Then_steps (next : ctxid -> Z -> (Z -> option error -> proc) -> proc)
    (k : futp -> proc) :
  tasks m !! t = Some (Then fuel x first next k) ->
  exists (m2 : machine) (n : nat) (m' : machine),
    run [Run t; Run t] m = Some m2 /\ cleared first m F m2 /\
    run (replicate n (Run t)) m2 = Some m' /\
    composed first m t F (length (futs m))
      {| deferFn := deferFn F; result := Some (length (chans m)) |} k m'.
Proof.
  intros Ht.
  assert (Hlt : t < length (tasks m)) by (by eapply lookup_lt_Some).
  assert (Hfl : first < length (futs m)) by (by eapply lookup_lt_Some).
  unfold Then, Exec, Generate in Ht.
  eexists. 
  destruct (deferFn F) as [c|] eqn:HdF.
  - exists 4. eexists. split; [|split; [|split]].
    + simpl. rewrite step_own by done. unfold run_task. rewrite Ht, first_is_F.
      own_step. rewrite first_is_F. reflexivity.
    + unfold cleared. machine_simpl. repeat split. solve_length.
    + simpl. do 3 own_step. rewrite HdF. own_step.
      rewrite lookup_app_r by solve_length.
      rewrite length_insert, Nat.sub_diag. cbn [lookup list_lookup].
      reflexivity.
    + unfold composed. machine_simpl. repeat split; try done.
      * rewrite list_lookup_insert_ne by lia.
        rewrite lookup_app_l by solve_length.
        by rewrite list_lookup_insert_eq.
      * intros p Hp Hpl. rewrite list_lookup_insert_ne by lia.
        rewrite lookup_app_l by solve_length.
        by rewrite list_lookup_insert_ne.
      * solve_length.
      * rewrite list_lookup_insert_eq by solve_length. done.
      * rewrite list_lookup_insert_eq by solve_length. by rewrite ?length_insert.
  - exists 3. eexists. split; [|split; [|split]].
    + simpl. rewrite step_own by done. unfold run_task. rewrite Ht, first_is_F.
      own_step. rewrite first_is_F. reflexivity.
    + unfold cleared. machine_simpl. repeat split. solve_length.
    + simpl. do 3 own_step. rewrite HdF. reflexivity.
    + unfold composed. machine_simpl. repeat split; try done.
      * rewrite lookup_app_l by solve_length.
        by rewrite list_lookup_insert_eq.
      * intros p Hp Hpl.
        rewrite lookup_app_l by solve_length.
        by rewrite list_lookup_insert_ne.
      * solve_length.
      * rewrite lookup_app_r by solve_length.
        rewrite length_insert, Nat.sub_diag. done.
      * rewrite list_lookup_insert_eq by solve_length. by rewrite ?length_insert.
Qed.

Lemma ThenWithDefer_steps
    (next : ctxid -> Z -> (option func -> Z -> option error -> proc) -> proc)
    (k : futp -> proc) :
  tasks m !! t = Some (ThenWithDefer fuel x first next k) ->
  exists (m2 : machine) (n : nat) (m' : machine),
    run [Run t; Run t] m = Some m2 /\ cleared first m F m2 /\
    run (replicate n (Run t)) m2 = Some m' /\
    composed first m t F (length (futs m))
      {| deferFn := match deferFn F with
                    | Some c => Some c
                    | None => Some (length (chans m))
                    end;
         result := Some (S (length (chans m))) |} k m'.
Proof.
  intros Ht.
  assert (Hlt : t < length (tasks m)) by (by eapply lookup_lt_Some).
  assert (Hfl : first < length (futs m)) by (by eapply lookup_lt_Some).
  unfold ThenWithDefer, ExecWithDefer, Generate in Ht.
  eexists.
  destruct (deferFn F) as [c|] eqn:HdF.
  - exists 5. eexists. split; [|split; [|split]].
    + simpl. rewrite step_own by done. unfold run_task. rewrite Ht, first_is_F.
      own_step. rewrite first_is_F. reflexivity.
    + unfold cleared. machine_simpl. repeat split. solve_length.
    + simpl. do 4 own_step. rewrite HdF. own_step.
      rewrite lookup_app_r by solve_length.
      rewrite length_insert, Nat.sub_diag. cbn [lookup list_lookup].
      reflexivity.
    + unfold composed. machine_simpl. repeat split; try done.
      * rewrite list_lookup_insert_ne by lia.
        rewrite lookup_app_l by solve_length.
        by rewrite list_lookup_insert_eq.
      * intros p Hp Hpl. rewrite list_lookup_insert_ne by lia.
        rewrite lookup_app_l by solve_length.
        by rewrite list_lookup_insert_ne.
      * solve_length.
      * rewrite list_lookup_insert_eq by solve_length. simpl.
        repeat f_equal. solve_length.
      * rewrite list_lookup_insert_eq by solve_length. by rewrite ?length_insert.
  - exists 4. eexists. split; [|split; [|split]].
    + simpl. rewrite step_own by done. unfold run_task. rewrite Ht, first_is_F.
      own_step. rewrite first_is_F. reflexivity.
    + unfold cleared. machine_simpl. repeat split. solve_length.
    + simpl. do 4 own_step. rewrite HdF. reflexivity.
    + unfold composed. machine_simpl. repeat split; try done.
      * rewrite lookup_app_l by solve_length.
        by rewrite list_lookup_insert_eq.
      * intros p Hp Hpl.
        rewrite lookup_app_l by solve_length.
        by rewrite list_lookup_insert_ne.
      * solve_length.
      * rewrite lookup_app_r by solve_length.
        rewrite length_insert, Nat.sub_diag. simpl. repeat f_equal. solve_length.
      * rewrite list_lookup_insert_eq by solve_length. by rewrite ?length_insert.
Qed.

End ThenFacts.

Section ThenClaims.

Import Rt.

Lemma Await_deferred_without_handoff (m : machine) (t : nat) (f : futp)
    (F : Future) (k : proc) :
  crashed m = None ->
  futs m !! f = Some F ->
  deferFn F = None ->
  tasks m !! t = Some (Await_deferred f k) ->
  step m (Run t) = Some (set_task t k m).
Proof.
  intros Hc HF Hnil Ht. rewrite step_own by done.
  unfold run_task, Await_deferred in *. by rewrite Ht, HF, Hnil.
Qed.

(** C10: [Then] and [ThenWithDefer] first set [first.deferFn] to nil and
    only then build the composed future; [first] keeps its result channel,
    no other future changes, and the composed future carries the handoff
    channel that [first] had.  Afterwards the deferred function of
    [first.Await] receives from no channel and calls no cleanup. *)
Theorem Then_moves_deferFn (fuel : nat) (x : ctxid) (first : futp) (m : machine)
    (t : nat) (F : Future) :
  crashed m = None ->
  futs m !! first = Some F ->
  (forall (next : ctxid -> Z -> (Z -> option error -> proc) -> proc)
          (k : futp -> proc),
      tasks m !! t = Some (Then fuel x first next k) ->
      exists (m2 : machine) (n : nat) (m' : machine),
        run [Run t; Run t] m = Some m2 /\ cleared first m F m2 /\
        run (replicate n (Run t)) m2 = Some m' /\
        composed first m t F (length (futs m))
          {| deferFn := deferFn F; result := Some (length (chans m)) |} k m') /\
  (forall (next : ctxid -> Z -> (option func -> Z -> option error -> proc) -> proc)
          (k : futp -> proc),
      tasks m !! t = Some (ThenWithDefer fuel x first next k) ->
      exists (m2 : machine) (n : nat) (m' : machine),
        run [Run t; Run t] m = Some m2 /\ cleared first m F m2 /\
        run (replicate n (Run t)) m2 = Some m' /\
        composed first m t F (length (futs m))
          {| deferFn := match deferFn F with
                        | Some c => Some c
                        | None => Some (length (chans m))
                        end;
             result := Some (S (length (chans m))) |} k m') /\
  (forall (m' : machine) (t' : nat) (k : proc),
      crashed m' = None ->
      futs m' !! first = Some {| deferFn := None; result := result F |} ->
      tasks m' !! t' = Some (Await_deferred first k) ->
      step m' (Run t') = Some (set_task t' k m')).
Proof.
  intros Hc HF. split; [|split].
  - intros next k Ht. exact (Then_steps fuel x first m t F Hc HF next k Ht).
  - intros next k Ht. exact (ThenWithDefer_steps fuel x first m t F Hc HF next k Ht).
  - intros m' t' k Hc' HF' Ht'.
    by apply (Await_deferred_without_handoff m' t' first _ k Hc' HF').
Qed.

Lemma Then_moves_deferFn_witness :
  let F := {| deferFn := Some 0; result := Some 1 |} in
  let next : ctxid -> Z -> (Z -> option error -> proc) -> proc :=
    fun _ v ret => ret (v + 1)%Z None in
  let m := {| chans := [false; false]; ctxs := [None]; futs := [F]; wgs := [];
              tasks := [Then 2 0 0 next (fun _ => Ret)]; log := [];
              crashed := None |} in
  exists (m2 : machine) (n : nat) (m' : machine),
    run [Run 0; Run 0] m = Some m2 /\ cleared 0 m F m2 /\
    run (replicate n (Run 0)) m2 = Some m' /\
    composed 0 m 0 F 1 {| deferFn := Some 0; result := Some 2 |} (fun _ => Ret) m'.
Proof.
  intros F next m.
  apply (proj1 (Then_moves_deferFn 2 0 0 m 0 F eq_refl eq_refl) next (fun _ => Ret)).
  reflexivity.
Defined.

End ThenClaims.

(** ** The closure of ThenWithDefer stays on the abandoned channel *)
Section ClosureFacts.

Import Rt.

Lemma confined_relay (out : chan) (f : option func) :
  out = abandoned \/ clean_fopt f -> confined (relay out f) None.
Proof.
  intros H. destruct f as [g|]; simpl.
  - split; [|done]. destruct H as [->|H]; [by left|by right].
  - split; [|done]. by right.
Qed.

Lemma confined_Generate_loop {S : Type} (fuel : nat) (x : ctxid) (out : chan)
    (next : ctxid -> S -> (value -> bool -> S -> proc) -> proc) (s : S) :
  (forall (s : S) (k : value -> bool -> S -> proc),
      (forall v b s', clean_val v -> confined (k v b s') None) -> confined (next x s k) None) ->
  confined (Generate_loop fuel x out next s) None.
Proof.
  intros Hnext. revert s. induction fuel as [|n IH]; intros s; simpl; [done|].
  apply Hnext. intros v b s' Hv. destruct b; simpl; [|done].
  split; [by right|]. split; [done|]. apply IH.
Qed.

Lemma confined_ExecWithDefer_next (dfn : chan)
    (fn : ctxid -> (option func -> Z -> option error -> proc) -> proc)
    (x : ctxid) (executed : bool) (k : value -> bool -> bool -> proc) :
  (forall ret : option func -> Z -> option error -> proc,
      (forall f v e, dfn = abandoned \/ clean_fopt f -> confined (ret f v e) None) ->
      confined (fn x ret) None) ->
  (forall v b s', clean_val v -> confined (k v b s') None) ->
  confined (ExecWithDefer_next dfn fn x executed k) None.
Proof.
  intros Hfn Hk. unfold ExecWithDefer_next. destruct executed; simpl.
  - by apply Hk.
  - apply Hfn. intros f v e Hf. simpl. split; [by apply confined_relay|]. by apply Hk.
Qed.

Lemma confined_Await_deferred_bg (k : proc) :
  confined k None -> confined (Await_deferred 0 k) None.
Proof.
  intros Hk. simpl. split; [done|]. intros F [_ [-> | ->]]; [done|].
  simpl. split; [done|]. intros v Hv. split; [|done].
  by destruct v as [[]|].
Qed.

Lemma confined_Await_bg (x : ctxid) (k : Z -> option error -> proc) :
  (forall v e, confined (k v e) None) -> confined (Await 0 x k) None.
Proof.
  intros Hk. simpl. split; [done|]. intros F [-> _]. simpl.
  split; [done|]. split.
  - intros e. by apply confined_Await_deferred_bg.
  - intros v _. destruct v as [[z|val e|f]|]; by apply confined_Await_deferred_bg.
Qed.

Lemma confined_gen1 (fuel : nat) :
  confined (Generate_loop fuel 0 1
        (ExecWithDefer_next 0 (user_fn_defer 1 (Some (UserFunc 10)) 5%Z None)) false)
     None.
Proof.
  apply confined_Generate_loop. intros s k Hk. apply confined_ExecWithDefer_next; [|done].
  intros ret Hret. simpl. split; [done|]. apply Hret. right. simpl. done.
Qed.

Lemma confined_gen2 (fuel : nat) (d : chanref) :
  d <> Some abandoned ->
  confined (Generate_loop fuel 0 3
        (ExecWithDefer_next 2
           (fun ctx ret =>
              Await 0 ctx (fun t err =>
                match err with
                | None => user_next_defer 2 (Some (UserFunc 20)) (fun t => (t * 2)%Z) ctx t
                            (fun dfn v err => ret (Some (Chain dfn d)) v err)
                | Some _ => ret (Some (Chain None d)) 0%Z err
                end))) false) None.
Proof.
  intros Hd. apply confined_Generate_loop. intros s k Hk.
  apply confined_ExecWithDefer_next; [|done].
  intros ret Hret. apply confined_Await_bg. intros v [e|].
  - apply Hret. by left.
  - simpl. split; [done|]. apply Hret. by left.
Qed.

Lemma caller_confined (fuel : nat) :
  confined (caller_then_with_defer fuel) (Some (0, [])).
Proof.
  simpl. split; [apply confined_gen1|].
  split; [intros _; split; [done|by right]|].
  eexists. split; [reflexivity|]. split; [by left|].
  eexists. split; [reflexivity|]. split; [by apply confined_gen2|].
  split; [by intros [=]|]. simpl.
  split; [done|]. eexists. split; [reflexivity|]. simpl.
  eexists. split; [reflexivity|]. simpl.
  split; [done|].
  assert (Hd : forall k,
    confined k (Some (4, [{| deferFn := None; result := Some 1 |};
                    {| deferFn := Some 0; result := Some 3 |}])) ->
    confined (Await_deferred 1 k)
       (Some (4, [{| deferFn := None; result := Some 1 |};
                  {| deferFn := Some 0; result := Some 3 |}]))).
  { intros k Hk. simpl. eexists. split; [reflexivity|]. simpl.
    split; [done|]. intros v Hv. split; [|done]. by destruct v as [[]|]. }
  split.
  - intros e. by apply Hd.
  - intros v _. destruct v as [[z|val e|f]|]; by apply Hd.
Qed.

Lemma Confined_init (fuel : nat) : Confined (init 1 (caller_then_with_defer fuel)).
Proof.
  unfold Confined. split; [|split; [|split]].
  - intros e He. simpl in He. by apply elem_of_nil in He.
  - intros t p Ht. destruct t as [|t]; simpl in Ht; [|done].
    injection Ht as <-. apply caller_confined.
  - done.
  - simpl. lia.
Qed.

Lemma view_other (m : machine) (t : nat) : t <> 0 -> view m t = None.
Proof. intros H. unfold view. by destruct t. Qed.

Lemma view_caller (m : machine) : view m 0 = Some (length (chans m), futs m).
Proof. reflexivity. Qed.

Lemma Confined_crash (msg : string) (m : machine) : Confined m -> Confined (crash msg m).
Proof. done. Qed.

Lemma Confined_set_ctxs (xs : list (option error)) (m : machine) :
  Confined m -> Confined (set_ctxs xs m).
Proof. done. Qed.

Lemma Confined_update (m m' : machine) (t : nat) (p' : proc) (spawn : list proc) :
  Confined m ->
  t < length (tasks m) ->
  tasks m' = <[t := p']> (tasks m) ++ spawn ->
  (forall e, e ∈ log m' -> e ∈ log m \/ e <> Cleaned 20) ->
  (forall q, q ∈ spawn -> confined q None) ->
  confined p' (view m' t) ->
  (t <> 0 -> length (chans m') = length (chans m) /\ futs m' = futs m) ->
  (forall F, futs m' !! 0 = Some F -> first_shape F) ->
  Confined m'.
Proof.
  intros (Hlog & Htasks & Hheap & Hpos) Hlt Heq Hlog' Hspawn Hp' Hframe Hheap'.
  split; [|split; [|split]].
  - intros e He. destruct (Hlog' e He) as [Hold|Hne]; [by apply Hlog|done].
  - intros u p Hu. rewrite Heq in Hu.
    destruct (Nat.lt_ge_cases u (length (tasks m))) as [Hul|Hug].
    + rewrite lookup_app_l in Hu by (by rewrite length_insert).
      destruct (decide (u = t)) as [->|Hne].
      * rewrite list_lookup_insert_eq in Hu by done. by injection Hu as <-.
      * rewrite list_lookup_insert_ne in Hu by done.
        specialize (Htasks u p Hu).
        destruct (decide (u = 0)) as [->|Hu0].
        -- assert (Ht0 : t <> 0) by done. destruct (Hframe Ht0) as [Hc Hf].
           unfold view in *. simpl in *. by rewrite Hc, Hf.
        -- by rewrite view_other in * by done.
    + rewrite lookup_app_r in Hu by (by rewrite length_insert).
      rewrite view_other by lia. apply Hspawn. by eapply list_elem_of_lookup_2.
  - done.
  - rewrite Heq, length_app, length_insert. lia.
Qed.

Ltac use_Confined_update m t p' sp :=
  apply (Confined_update m _ t p' sp);
  [ done | done
  | simpl; rewrite ?app_nil_r, ?insert_app_l by done; reflexivity
  | simpl; intros ? ?; rewrite ?elem_of_app, ?list_elem_of_singleton in *;
    intuition (subst; auto)
  | intros ? ?; rewrite ?list_elem_of_singleton, ?elem_of_nil in *;
    intuition (subst; auto)
  | first [rewrite view_other by done | rewrite view_caller]; simpl;
    rewrite ?length_app, ?length_insert; simpl;
    rewrite ?Nat.add_1_r; try done; try tauto
  | let Hx := fresh in
    intros Hx; first [done | simpl; rewrite ?length_insert; done | idtac]
  | try done ].

Lemma Confined_run_task (m m' : machine) (t : nat) :
  Confined m -> run_task t m = Some m' -> Confined m'.
Proof.
  intros HI Hstep. pose proof HI as (Hlog & Htasks & Hheap & Hpos).
  unfold run_task in Hstep. destruct (tasks m !! t) as [p|] eqn:Ht; [|done].
  assert (Hlt : t < length (tasks m)) by (by eapply lookup_lt_Some).
  pose proof (Htasks t p Ht) as Hok.
  destruct (decide (t = 0)) as [->|Hne].
  - (* the caller *)
    rewrite view_caller in Hok.
    destruct p as [| |e k|k|[c|] v k|[c|] k|y c v kd ks|y c kd kr|[c|] k|q k|y k
                   |f k|f k|f c k|[[id| |dfn d]|] k|n k|w k|w k];
      simpl in Hok; try done.
    + injection Hstep as <-. use_Confined_update m 0 k (@nil proc).
    + injection Hstep as <-.
      use_Confined_update m 0 (k (length (chans m))) (@nil proc).
    + destruct (chans m !! c) as [[]|]; [|done..]. injection Hstep as <-.
      by apply Confined_crash.
    + destruct (chans m !! c) as [[]|]; [|done..]. injection Hstep as <-.
      use_Confined_update m 0 (k None) (@nil proc). by apply Hok.
    + destruct (fired m y); [|done]. injection Hstep as <-.
      use_Confined_update m 0 kd (@nil proc).
    + destruct (fired m y); [|done]. injection Hstep as <-.
      use_Confined_update m 0 kd (@nil proc).
    + destruct (chans m !! c) as [[]|]; [| |done]; injection Hstep as <-.
      * by apply Confined_crash.
      * use_Confined_update m 0 k (@nil proc).
    + injection Hstep as <-. by apply Confined_crash.
    + injection Hstep as <-. use_Confined_update m 0 k [q].
    + injection Hstep as <-. use_Confined_update m 0 (k (ctx_err m y)) (@nil proc).
    + injection Hstep as <-. destruct Hok as [Hf Hk].
      use_Confined_update m 0 (k (length (futs m))) (@nil proc).
      simpl. intros F HF. destruct (futs m) as [|G rest] eqn:Hfm.
      * simpl in HF. injection HF as <-. by apply Hf.
      * apply Hheap. by simpl in *.
    + destruct Hok as (F & HF & Hk). rewrite HF in Hstep. injection Hstep as <-.
      use_Confined_update m 0 (k F) (@nil proc).
    + destruct Hok as (Hc & F & HF & Hk). rewrite HF in Hstep.
      injection Hstep as <-. use_Confined_update m 0 k (@nil proc).
      simpl. intros G HG. destruct (decide (f = 0)) as [->|Hf0].
      * rewrite list_lookup_insert_eq in HG by (by eapply lookup_lt_Some).
        injection HG as <-. destruct (Hheap F HF) as [Hr _]. split; [done|].
        simpl. destruct (Hc eq_refl) as [-> | ->]; tauto.
      * rewrite list_lookup_insert_ne in HG by done. by apply Hheap.
    + injection Hstep as <-. use_Confined_update m 0 k (@nil proc).
      right. intros [= Heq]. auto.
    + injection Hstep as <-. use_Confined_update m 0 k (@nil proc).
    + injection Hstep as <-. by apply Confined_crash.
    + injection Hstep as <-. by apply Confined_crash.
  - (* the others *)
    rewrite view_other in Hok by done.
    destruct p as [| |e k|k|[c|] v k|[c|] k|y c v kd ks|y c kd kr|[c|] k|q k|y k
                   |f k|f k|f c k|[[id| |dfn d]|] k|n k|w k|w k];
      simpl in Hok; try done.
    + injection Hstep as <-. use_Confined_update m t k (@nil proc).
    + destruct (chans m !! c) as [[]|]; [|done..]. injection Hstep as <-.
      by apply Confined_crash.
    + destruct (chans m !! c) as [[]|]; [|done..]. injection Hstep as <-.
      use_Confined_update m t (k None) (@nil proc). by apply Hok.
    + destruct (fired m y); [|done]. injection Hstep as <-.
      use_Confined_update m t kd (@nil proc).
    + destruct (fired m y); [|done]. injection Hstep as <-.
      use_Confined_update m t kd (@nil proc).
    + destruct (chans m !! c) as [[]|]; [| |done]; injection Hstep as <-.
      * by apply Confined_crash.
      * use_Confined_update m t k (@nil proc).
    + injection Hstep as <-. by apply Confined_crash.
    + injection Hstep as <-. use_Confined_update m t k [q].
    + injection Hstep as <-. use_Confined_update m t (k (ctx_err m y)) (@nil proc).
    + destruct Hok as [-> Hk]. unfold futp in Hstep.
      destruct (futs m !! 0) as [F|] eqn:HF; [|done].
      injection Hstep as <-. use_Confined_update m t (k F) (@nil proc).
      * apply Hk. by apply Hheap.
      * simpl. intros G HG. apply Hheap. rewrite <- HF. exact HG.
    + injection Hstep as <-. use_Confined_update m t k (@nil proc).
      right. intros [= Heq]. auto.
    + injection Hstep as <-. use_Confined_update m t k (@nil proc).
    + injection Hstep as <-. by apply Confined_crash.
    + injection Hstep as <-. by apply Confined_crash.
Qed.

Lemma Confined_run_closed_case (m m' : machine) (t : nat) :
  Confined m -> run_closed_case t m = Some m' -> Confined m'.
Proof.
  intros HI Hstep. pose proof HI as (Hlog & Htasks & Hheap & Hpos).
  unfold run_closed_case in Hstep.
  destruct (tasks m !! t) as [p|] eqn:Ht; [|done].
  assert (Hlt : t < length (tasks m)) by (by eapply lookup_lt_Some).
  pose proof (Htasks t p Ht) as Hok.
  destruct p as [| |e k|k|c v k|c k|y [c|] v kd ks|y [c|] kd kr|c k|q k|y k
                 |f k|f k|f c k|f k|n k|w k|w k]; try done.
  - destruct (chans m !! c) as [[]|]; [|done..]. injection Hstep as <-.
    by apply Confined_crash.
  - destruct (chans m !! c) as [[]|]; [|done..]. injection Hstep as <-.
    simpl in Hok. destruct Hok as (_ & _ & Hk).
    apply (Confined_update m _ t (kr None) []); try done.
    + simpl. by rewrite app_nil_r.
    + intros e He. by left.
    + intros q Hq. by apply elem_of_nil in Hq.
    + by apply Hk.
Qed.

Lemma sender_confined (p : proc) (w : option (nat * list Future)) (c : chan) (v : value)
    (k : proc) :
  confined p w -> sender p = Some (c, v, k) -> (c = abandoned \/ clean_val v) /\ confined k w.
Proof.
  destruct p as [| |e k'|k'|[c'|] v' k'|c' k'|y [c'|] v' kd ks|y c' kd kr|c' k'|q k'
                 |y k'|f k'|f k'|f c' k'|f k'|n k'|w' k'|w' k']; try done;
    simpl; intros Hok [= -> -> ->].
  - destruct Hok as [[[= ->]|Hv] Hk]; tauto.
  - destruct Hok as ([[= ->]|Hv] & _ & Hk); tauto.
Qed.

Lemma receiver_confined (p : proc) (w : option (nat * list Future)) (c : chan)
    (k : option value -> proc) :
  confined p w -> receiver p = Some (c, k) ->
  c <> abandoned /\ forall v, clean_recv v -> confined (k v) w.
Proof.
  destruct p as [| |e k'|k'|c' v' k'|[c'|] k'|y c' v' kd ks|y [c'|] kd kr|c' k'|q k'
                 |y k'|f k'|f k'|f c' k'|f k'|n k'|w' k'|w' k']; try done;
    simpl; intros Hok [= -> ->].
  - destruct Hok as [Hc Hk]. split; [congruence|done].
  - destruct Hok as (Hc & _ & Hk). split; [congruence|done].
Qed.

Lemma Confined_sync (m m' : machine) (s r : nat) :
  Confined m -> sync s r m = Some m' -> Confined m'.
Proof.
  intros HI Hstep. pose proof HI as (Hlog & Htasks & Hheap & Hpos).
  unfold sync in Hstep.
  destruct (Nat.eqb_spec s r) as [|Hsr]; [done|].
  destruct (tasks m !! s) as [ps|] eqn:Hs; [|done].
  destruct (tasks m !! r) as [pr|] eqn:Hr; [|done].
  destruct (sender ps) as [[[c v] ks]|] eqn:Hsend; [|done].
  destruct (receiver pr) as [[c' kr]|] eqn:Hrecv; [|done].
  destruct (chans m !! c) as [[]|]; [done| |done].
  destruct (Nat.eqb_spec c c') as [<-|]; [|done].
  injection Hstep as <-.
  assert (Hsl : s < length (tasks m)) by (by eapply lookup_lt_Some).
  assert (Hrl : r < length (tasks m)) by (by eapply lookup_lt_Some).
  destruct (sender_confined ps _ c v ks (Htasks s ps Hs) Hsend) as [Hv Hks].
  destruct (receiver_confined pr _ c kr (Htasks r pr Hr) Hrecv) as [Hc Hkr].
  assert (Hclean : clean_val v) by (destruct Hv; done).
  assert (HI1 : Confined (set_task s ks m)).
  { apply (Confined_update m _ s ks []); try done.
    - simpl. by rewrite app_nil_r.
    - intros e He. by left.
    - intros q Hq. by apply elem_of_nil in Hq. }
  apply (Confined_update (set_task s ks m) _ r (kr (Some v)) []); try done.
  - simpl. by rewrite length_insert.
  - simpl. by rewrite app_nil_r.
  - intros e He. by left.
  - intros q Hq. by apply elem_of_nil in Hq.
  - by apply Hkr.
Qed.

Lemma Confined_step (m m' : machine) (a : action) :
  Confined m -> step m a = Some m' -> Confined m'.
Proof.
  intros HI Hstep. unfold step in Hstep. destruct (crashed m); [done|].
  destruct a as [t|t|s r|x e].
  - by eapply Confined_run_task.
  - by eapply Confined_run_closed_case.
  - by eapply Confined_sync.
  - unfold cancel in Hstep. destruct (ctxs m !! x) as [[]|]; [done| |done].
    injection Hstep as <-. by apply Confined_set_ctxs.
Qed.

Lemma Confined_run (sched : list action) :
  forall m m' : machine, Confined m -> run sched m = Some m' -> Confined m'.
Proof.
  induction sched as [|a rest IH]; intros m m' HI Hrun; simpl in Hrun.
  - by injection Hrun as <-.
  - destruct (step m a) as [m1|] eqn:Hstep; [|done].
    eapply IH; [|done]. by eapply Confined_step.
Qed.

(** Whatever the schedule, [next]'s cleanup is never run. *)
Lemma next_cleanup_never_runs (fuel : nat) (sched : list action) (m : machine) :
  run sched (init 1 (caller_then_with_defer fuel)) = Some m ->
  Cleaned 20 ∉ log m.
Proof.
  intros Hrun Hin.
  destruct (Confined_run sched _ m (Confined_init fuel) Hrun) as [Hlog _].
  by apply (Hlog _ Hin).
Qed.

End ClosureFacts.

(** ** The one-shot guard of Exec and ExecWithDefer *)
Section ExecClaims.

Import Rt.

(** The stepping closures never see [executed] set: from [false] they
    call [fn], answer [ok = true] and hand [false] on to the next step. *)
Lemma Exec_next_calls_fn (x ctx : ctxid)
    (fn : ctxid -> (Z -> option error -> proc) -> proc)
    (k : value -> bool -> bool -> proc) :
  Exec_next x fn ctx false k = fn x (fun val err => k (VResult val err) true false).
Proof. reflexivity. Qed.

Lemma ExecWithDefer_next_calls_fn (dfn : chan) (ctx : ctxid)
    (fn : ctxid -> (option func -> Z -> option error -> proc) -> proc)
    (k : value -> bool -> bool -> proc) :
  ExecWithDefer_next dfn fn ctx false k
  = fn ctx (fun deferFn val err =>
      Go (relay dfn deferFn) (k (VResult val err) true false)).
Proof. reflexivity. Qed.

(** Every round of the generator behind [Exec] starts with a call of
    [fn]; the guard is [false] in all of them. *)
Lemma Exec_loop_round (n : nat) (x : ctxid) (out : chan) (id : nat) (val : Z)
    (err : option error) :
  Generate_loop (S n) x out (Exec_next x (user_fn id val err)) false
  = Emit (Called id)
      (SelectSend x (Some out) (VResult val err)
         (Close (Some out) Ret)
         (Generate_loop n x out (Exec_next x (user_fn id val err)) false)).
Proof. reflexivity. Qed.

(** C1, the code at the failing input: one [Exec], one [Await], a token
    that never fires; [fn] is invoked twice. *)
Theorem Exec_invokes_fn_twice (n : nat) :
  exists m : machine,
    run sched_exec_await (init 1 (caller_exec_await (S (S n)))) = Some m /\
    log m = [Called 1; Called 1; Returned 5 None] /\
    crashed m = None.
Proof. eexists. split; [vm_compute; reflexivity|]. split; reflexivity. Qed.

(** C9, the code at the failing input: one [ExecWithDefer], one [Await];
    the generator's second step starts a second relay on the handoff
    channel, whose send panics. *)
Theorem ExecWithDefer_second_relay_panics (n : nat) :
  exists m : machine,
    run sched_defer_await (init 1 (caller_defer_await (S (S n)))) = Some m /\
    log m = [Called 1; Cleaned 7; Called 1] /\
    crashed m = Some "send on closed channel"%string.
Proof. eexists. split; [vm_compute; reflexivity|]. split; reflexivity. Qed.

(** The hazard the claim describes is there as well: if the second relay
    has not run yet, a second [Await] receives the zero value from the
    closed handoff channel and calls it. *)
Lemma ExecWithDefer_second_Await_calls_nil (n : nat) :
  exists m : machine,
    run sched_defer_await_twice (init 1 (caller_defer_await_twice (S (S n)))) = Some m /\
    log m = [Called 1; Cleaned 7; Returned 5 None; Called 1] /\
    crashed m = Some "runtime error: invalid memory address or nil pointer dereference"%string.
Proof. eexists. split; [vm_compute; reflexivity|]. split; reflexivity. Qed.

(** C2, the code at the failing input: both [first] and [next] supply a
    cleanup (10 and 20).  The composed future's handoff channel is
    [first]'s; [Await] receives [first]'s cleanup from it and runs it.
    The closure written to run 20 and then 10 stays with its relay, and
    under no schedule is cleanup 20 ever run. *)
Theorem ThenWithDefer_runs_first_cleanup_only (n : nat) :
  (exists m : machine,
      run sched_then_with_defer (init 1 (caller_then_with_defer (S n))) = Some m /\
      log m = [Called 1; Called 2; Cleaned 10; Returned 10 None] /\
      futs m = [{| deferFn := None; result := Some 1 |};
                {| deferFn := Some 0; result := Some 3 |}] /\
      statuses m !! 0 = Some Finished /\
      statuses m !! 4 = Some (SendingOn (Some abandoned) false) /\
      crashed m = None) /\
  (forall (sched : list action) (m : machine),
      run sched (init 1 (caller_then_with_defer (S n))) = Some m ->
      Cleaned 20 ∉ log m).
Proof.
  split.
  - eexists. split; [vm_compute; reflexivity|]. repeat split.
  - intros sched m. apply next_cleanup_never_runs.
Qed.

Lemma ThenWithDefer_runs_first_cleanup_only_witness :
  exists m : machine,
    run sched_then_with_defer (init 1 (caller_then_with_defer 1)) = Some m /\
    Cleaned 20 ∉ log m.
Proof.
  eexists. split; [vm_compute; reflexivity|].
  apply (proj2 (ThenWithDefer_runs_first_cleanup_only 0) sched_then_with_defer).
  vm_compute. reflexivity.
Defined.

End ExecClaims.

(** ** Deliveries and cancellation *)
Section CancelClaims.

Import Rt.

(** C3, the code at the failing input: [Merge] of two one-item sources
    whose consumer has gone.  After the token fires the sources and the
    gates stop, and both relays stay in [out <- v]: no action of the
    program is possible any more. *)
Theorem Merge_relays_blocked_after_cancel (n : nat) :
  exists m : machine,
    run sched_merge_abandoned (init 1 (caller_merge_abandoned (S (S n)))) = Some m /\
    fired m 0 = true /\
    statuses m = [Finished; Finished; Finished; Finished;
                  SendingOn (Some 2) false; Finished;
                  SendingOn (Some 2) false; Waiting] /\
    chans m !! 2 = Some false /\
    forall a : action, step m a = None.
Proof.
  eexists. split; [vm_compute; reflexivity|]. repeat split.
  apply quiescent_deadlocked; [vm_compute; reflexivity|].
  intros x Hx. simpl in Hx. destruct x; [reflexivity|lia].
Qed.

(** The later [Limit] in the same situation: its send is raced, every
    goroutine finishes. *)
Lemma Limit_stops_after_cancel (n : nat) :
  exists m : machine,
    run sched_limit_abandoned (init 1 (caller_limit_abandoned (S (S n)))) = Some m /\
    statuses m = [Finished; Finished; Finished; Finished].
Proof. eexists. split; [vm_compute; reflexivity|]. reflexivity. Qed.

(** The earlier [Limit] sends outside any [select] and stays there. *)
Lemma Earlier_Limit_blocked_after_cancel (n : nat) :
  exists m : machine,
    run sched_earlier_limit_abandoned
      (init 1 (caller_earlier_limit_abandoned (S (S n)))) = Some m /\
    fired m 0 = true /\
    statuses m = [Finished; Finished; SendingOn (Some 1) false] /\
    forall a : action, step m a = None.
Proof.
  eexists. split; [vm_compute; reflexivity|]. repeat split.
  apply quiescent_deadlocked; [vm_compute; reflexivity|].
  intros x Hx. simpl in Hx. destruct x; [reflexivity|lia].
Qed.

End CancelClaims.

(** * More of the code *)

(** ** ToChan, Filter, Limit, Unroll *)
Section StagesFacts.

Import Seq Stages.

Context {T : Type}.

Lemma Generate_ToChan_from (zero : T) (values : list T) (fuel : nat) :
  forall i : nat,
    i <= length values -> length values - i < fuel ->
    Generate fuel (ToChan_next zero values) i = (drop i values, true).
Proof.
  induction fuel as [|fuel IH]; intros i Hi Hfuel; [lia|].
  cbn [Generate].
  destruct (ToChan_next zero values i) as [[v ok] i'] eqn:Hnext.
  unfold ToChan_next in Hnext. injection Hnext as Hv Hok <-.
  destruct (Nat.ltb_spec i (length values)) as [Hlt|Hge]; subst ok.
  - destruct (lookup_lt_is_Some_2 values i Hlt) as [x Hx].
    rewrite Hx in Hv. simpl in Hv. subst v. rewrite (IH (S i)) by lia.
    by rewrite (drop_S values x i Hx).
  - by rewrite drop_ge by lia.
Qed.

(** [ToChan] delivers exactly the values it was given, in order, and
    closes. *)
Theorem ToChan_delivers_values (zero : T) (values : list T) (fuel : nat) :
  length values < fuel -> ToChan zero fuel values = (values, true).
Proof.
  intros Hfuel. unfold ToChan.
  rewrite (Generate_ToChan_from zero values fuel 0) by lia. by rewrite drop_0.
Qed.

Lemma Filter_collect_spec (empty : T) (f : T -> bool) (input : list T) :
  (exists v rest,
      Filter_collect empty f input = (v, true, rest) /\
      List.filter f input = v :: List.filter f rest /\
      length rest < length input) \/
  (Filter_collect empty f input = (empty, false, []) /\ List.filter f input = []).
Proof.
  induction input as [|x input IH]; simpl; [by right|].
  destruct (f x) eqn:Hx.
  - left. exists x, input. repeat split. lia.
  - destruct IH as [(v & rest & Hc & Hf & Hl)|[Hc Hf]].
    + left. exists v, rest. repeat split; [done|done|lia].
    + by right.
Qed.

Lemma Collector_loop_filter (empty : T) (f : T -> bool) (fuel : nat) :
  forall input : list T,
    length input < fuel ->
    Collector_loop fuel (Filter_collect empty f) input = (List.filter f input, true).
Proof.
  induction fuel as [|fuel IH]; intros input Hfuel; [lia|].
  simpl. destruct (Filter_collect_spec empty f input)
    as [(v & rest & Hc & Hf & Hl)|[Hc Hf]]; rewrite Hc, Hf.
  - rewrite IH by lia. reflexivity.
  - reflexivity.
Qed.

(** [Filter] delivers exactly the accepted items, in the order of the
    input, and closes. *)
Theorem Filter_delivers_accepted (empty : T) (f : T -> bool) (input : list T)
    (fuel : nat) :
  length input < fuel ->
  Filter empty fuel f input = (List.filter f input, true).
Proof.
  intros Hfuel. unfold Filter, Collector, OrDone, Map.
  rewrite list_fmap_id. by apply Collector_loop_filter.
Qed.

Lemma Limit_range_take (w n : Z) (items : list T) :
  (1 < w)%Z -> Int.in_range w n ->
  forall i : Z,
    (0 <= i < Z.max n 1)%Z ->
    Limit_range w n i items = take (Z.to_nat (Z.max n 1 - i)) items.
Proof.
  intros Hw Hn. induction items as [|v rest IH]; intros i Hi; simpl.
  - by rewrite take_nil.
  - assert (Hin : Int.in_range w (i + 1)).
    { unfold Int.in_range, Int.min_int, Int.max_int in *.
      assert (2 <= 2 ^ (w - 1))%Z.
      { change 2%Z with (2 ^ 1)%Z at 1. apply Z.pow_le_mono_r; lia. }
      lia. }
    rewrite (wrap_in_range w (i + 1)) by (done || lia).
    replace (Z.to_nat (Z.max n 1 - i)) with (S (Z.to_nat (Z.max n 1 - (i + 1))))
      by lia.
    simpl. f_equal.
    destruct (Z.geb_spec (i + 1) n) as [Hge|Hlt].
    + replace (Z.to_nat (Z.max n 1 - (i + 1))) with 0 by lia. by rewrite take_0.
    + apply IH. lia.
Qed.

(** The later [Limit]: for [n = 0] the nil channel; for [n > 0] the first
    [n] items and a close; for [n < 0] one item (the test [i >= n] comes
    after the first delivery) and a close. *)
Theorem Limit_delivers_prefix (w n : Z) (input : list T) :
  (1 < w)%Z -> Int.in_range w n ->
  Limit w n input
  = if (n =? 0)%Z then None
    else Some (take (Z.to_nat (Z.max n 1)) input, true).
Proof.
  intros Hw Hn. unfold Limit. destruct (n =? 0)%Z; [done|].
  unfold OrDone, Map. rewrite list_fmap_id.
  rewrite (Limit_range_take w n input Hw Hn 0) by lia.
  by rewrite Z.sub_0_r.
Qed.

Lemma Earlier_Limit_for_take (w n : Z) (items : list T) :
  (1 < w)%Z -> Int.in_range w n ->
  forall i : Z,
    (0 <= i)%Z -> (i <= Z.max n 0)%Z ->
    Earlier_Limit_for w n i items = take (Z.to_nat (n - i)) items.
Proof.
  intros Hw Hn. induction items as [|v rest IH]; intros i Hi Hle.
  - simpl. rewrite take_nil. by destruct (i <? n)%Z.
  - simpl. destruct (Z.ltb_spec i n) as [Hlt|Hge].
    + assert (Hin : Int.in_range w (i + 1)).
      { unfold Int.in_range, Int.min_int, Int.max_int in *.
        assert (0 < 2 ^ (w - 1))%Z by (apply Z.pow_pos_nonneg; lia). lia. }
      rewrite (wrap_in_range w (i + 1)) by (done || lia).
      replace (Z.to_nat (n - i)) with (S (Z.to_nat (n - (i + 1)))) by lia.
      simpl. f_equal. apply IH; lia.
    + replace (Z.to_nat (n - i)) with 0 by lia. by rewrite take_0.
Qed.

(** The earlier [Limit]: never nil; the first [n] items and a close, no
    item at all for [n <= 0]. *)
Theorem Earlier_Limit_delivers_prefix (w n : Z) (input : list T) :
  (1 < w)%Z -> Int.in_range w n ->
  Earlier_Limit w n input = (take (Z.to_nat n) input, true).
Proof.
  intros Hw Hn. unfold Earlier_Limit.
  rewrite (Earlier_Limit_for_take w n input Hw Hn 0) by lia.
  by rewrite Z.sub_0_r.
Qed.

Lemma Unroll_arr_id (arr : list T) : Unroll_arr arr = arr.
Proof. induction arr as [|v rest IH]; simpl; [done|by rewrite IH]. Qed.

Lemma Unroll_concat (input : list (list T)) : Unroll input = concat input.
Proof.
  unfold Unroll, OrDone, Map. rewrite list_fmap_id.
  induction input as [|arr rest IH]; simpl; [done|].
  by rewrite Unroll_arr_id, IH.
Qed.

(** Batching with the fixed-size rule and unrolling the batches gives
    the input back, in order, for every batch size [k > 0]. *)
Theorem Unroll_Collector_round_trip (k : nat) (input : list T) (fuel : nat) :
  0 < k -> length input < fuel ->
  exists batches : list (list T),
    Collector fuel (sliceCollector k) input = (batches, true) /\
    Unroll batches = input.
Proof.
  intros Hk Hfuel. unfold Collector. rewrite OrDone_id.
  destruct (Collector_loop_batches k Hk fuel input Hfuel) as (out & Hrun & _ & Hcat).
  exists out. split; [done|]. by rewrite Unroll_concat.
Qed.

End StagesFacts.

Section StagesWitnesses.

Import Seq Stages.

Lemma ToChan_delivers_values_witness :
  ToChan 0%Z 4 [7; 8; 9]%Z = ([7; 8; 9]%Z, true).
Proof. apply (ToChan_delivers_values 0%Z [7; 8; 9]%Z 4). simpl. lia. Defined.

Lemma Filter_delivers_accepted_witness :
  Filter 0%Z 6 Z.even [1; 2; 3; 4; 5]%Z = ([2; 4]%Z, true).
Proof.
  apply (Filter_delivers_accepted 0%Z Z.even [1; 2; 3; 4; 5]%Z 6). simpl. lia.
Defined.

Lemma Limit_delivers_prefix_witness :
  Limit 64 (- 3) [1; 2; 3]%Z = Some ([1%Z], true) /\
  Limit 64 2 [1; 2; 3]%Z = Some ([1; 2]%Z, true) /\
  Limit 64 0 [1; 2; 3]%Z = None.
Proof.
  split; [|split].
  - apply (Limit_delivers_prefix 64 (- 3) [1; 2; 3]%Z); [lia|].
    vm_compute. split; discriminate.
  - apply (Limit_delivers_prefix 64 2 [1; 2; 3]%Z); [lia|].
    vm_compute. split; discriminate.
  - apply (Limit_delivers_prefix 64 0 [1; 2; 3]%Z); [lia|].
    vm_compute. split; discriminate.
Defined.

Lemma Earlier_Limit_delivers_prefix_witness :
  Earlier_Limit 64 (- 3) [1; 2; 3]%Z = ([], true) /\
  Earlier_Limit 64 2 [1; 2; 3]%Z = ([1; 2]%Z, true).
Proof.
  split.
  - apply (Earlier_Limit_delivers_prefix 64 (- 3) [1; 2; 3]%Z); [lia|].
    vm_compute. split; discriminate.
  - apply (Earlier_Limit_delivers_prefix 64 2 [1; 2; 3]%Z); [lia|].
    vm_compute. split; discriminate.
Defined.

Lemma Unroll_Collector_round_trip_witness :
  exists batches : list (list Z),
    Collector 8 (sliceCollector 3) [1; 2; 3; 4; 5; 6; 7]%Z = (batches, true) /\
    Unroll batches = [1; 2; 3; 4; 5; 6; 7]%Z.
Proof.
  apply (Unroll_Collector_round_trip 3 [1; 2; 3; 4; 5; 6; 7]%Z 8); simpl; lia.
Defined.

End StagesWitnesses.

(** ** Tee *)
Section TeeFacts.

Import Stages.

(** In one round of [Tee] no output receives the item twice, and when the
    token has fired at neither [select] both outputs receive it. *)
Theorem Tee_round_at_most_once (c1 c2 : nat) (fired1 fired2 : bool) (p1 p2 : pick)
    (sent : list nat) :
  c1 <> c2 ->
  Tee_round c1 c2 fired1 fired2 p1 p2 = Some sent ->
  NoDup sent /\
  (forall c : nat, c ∈ sent -> c = c1 \/ c = c2) /\
  (fired1 = false -> fired2 = false -> sent ≡ₚ [c1; c2]).
Proof.
  intros Hne Hround. unfold Tee_round in Hround.
  assert (Hcases : sent = [] /\ fired2 = true \/ sent = [c1] /\ (fired1 = true \/ fired2 = true)
                   \/ sent = [c2] /\ (fired1 = true \/ fired2 = true)
                   \/ sent = [c1; c2] \/ sent = [c2; c1]).
  { destruct p1, p2, fired1, fired2; simpl in Hround; simplify_eq; tauto. }
  assert (Hnot1 : c1 ∉ [c2]) by (rewrite list_elem_of_singleton; done).
  assert (Hnot2 : c2 ∉ [c1]) by (rewrite list_elem_of_singleton; congruence).
  destruct Hcases as [[-> Hf]|[[-> Hf]|[[-> Hf]|[->| ->]]]]; (split; [|split]).
  - constructor.
  - intros c Hc. by apply elem_of_nil in Hc.
  - intros _ H2. congruence.
  - apply NoDup_singleton.
  - intros c Hc. apply list_elem_of_singleton in Hc. by left.
  - intros H1 H2. destruct Hf; congruence.
  - apply NoDup_singleton.
  - intros c Hc. apply list_elem_of_singleton in Hc. by right.
  - intros H1 H2. destruct Hf; congruence.
  - constructor; [done|apply NoDup_singleton].
  - intros c Hc. rewrite elem_of_cons, list_elem_of_singleton in Hc. tauto.
  - reflexivity.
  - constructor; [done|apply NoDup_singleton].
  - intros c Hc. rewrite elem_of_cons, list_elem_of_singleton in Hc. tauto.
  - intros _ _. apply Permutation_swap.
Qed.

Lemma Tee_round_at_most_once_witness :
  NoDup [4; 3] /\
  (forall c : nat, c ∈ [4; 3] -> c = 3 \/ c = 4) /\
  (false = false -> false = false -> [4; 3] ≡ₚ [3; 4]).
Proof.
  apply (Tee_round_at_most_once 3 4 false false Out2 Out1 [4; 3]); [lia|reflexivity].
Defined.

End TeeFacts.

(** ** Await and cancellation *)
Section AwaitFacts.

Import Rt.

Lemma set_task_twice (m : machine) (t : nat) (p q : proc) :
  set_task t p (set_task t q m) = set_task t p m.
Proof. unfold set_task. simpl. by rewrite list_insert_insert_eq. Qed.

(** A plain receive on an open channel does not move on its own,
    whatever the tokens do; only a sender (or the close of the channel)
    frees it. *)
Lemma plain_recv_waits (m m' : machine) (a : action) (t : nat) (c : chan)
    (k : option value -> proc) :
  tasks m !! t = Some (Recv (Some c) k) ->
  chans m !! c = Some false ->
  step m a = Some m' ->
  (forall s : nat, a <> Sync s t) ->
  tasks m' !! t = Some (Recv (Some c) k).
Proof.
  intros Ht Hopen Hstep Hsync.
  assert (Hdec : involves a t \/ ~ involves a t).
  { destruct a as [u|u|s r|x e]; simpl.
    - destruct (decide (u = t)); tauto.
    - destruct (decide (u = t)); tauto.
    - destruct (decide (s = t)), (decide (r = t)); tauto.
    - tauto. }
  destruct Hdec as [Hin|Hout]; [|by eapply step_other_task].
  exfalso. unfold step in Hstep. destruct (crashed m); [done|].
  destruct a as [u|u|s r|x e]; simpl in Hin; subst.
  - unfold run_task in Hstep. by rewrite Ht, Hopen in Hstep.
  - unfold run_closed_case in Hstep. by rewrite Ht in Hstep.
  - destruct Hin as [->| ->]; [|by eapply Hsync].
    unfold sync in Hstep. destruct (t =? r); [done|].
    rewrite Ht in Hstep. simpl in Hstep. by destruct (tasks m !! r).
  - done.
Qed.

(** [Await] on a future without a handoff channel, the token having
    fired: by the [ctx.Done()] case it returns the zero value and the
    token's error, in four steps of its own, whatever the result channel
    holds. *)
Theorem Await_cancelled_returns_zero (m : machine) (t : nat) (f : futp) (x : ctxid)
    (k : Z -> option error -> proc) (F : Future) (e : error) :
  crashed m = None ->
  tasks m !! t = Some (Await f x k) ->
  futs m !! f = Some F ->
  deferFn F = None ->
  ctxs m !! x = Some (Some e) ->
  run [Run t; Run t; Run t; Run t] m = Some (set_task t (k 0%Z (Some e)) m).
Proof.
  intros Hc Ht HF Hnil Hx.
  assert (Hlt : t < length (tasks m)) by (by eapply lookup_lt_Some).
  assert (Hfired : fired m x = true) by (unfold fired; by rewrite Hx).
  assert (Herr : ctx_err m x = Some e) by (unfold ctx_err; by rewrite Hx).
  unfold Await in Ht. simpl.
  rewrite step_own by done. unfold run_task. rewrite Ht, HF.
  own_step. unfold fired at 1. machine_simpl. rewrite Hx.
  own_step. unfold ctx_err at 1. machine_simpl. rewrite Hx.
  own_step. unfold Await_deferred at 1. rewrite HF, Hnil.
  by rewrite !set_task_twice.
Qed.

(** With a handoff channel the deferred function of [Await] receives
    from it on every exit path, outside any [select]: after the token has
    fired [Await] stands at that receive with the zero value and the
    token's error in hand, and stays there until a function is handed
    over or the channel is closed. *)
Theorem Await_cancelled_waits_for_handoff (m : machine) (t : nat) (f : futp)
    (x : ctxid) (k : Z -> option error -> proc) (F : Future) (e : error) (c : chan) :
  crashed m = None ->
  tasks m !! t = Some (Await f x k) ->
  futs m !! f = Some F ->
  deferFn F = Some c ->
  ctxs m !! x = Some (Some e) ->
  let waiting := Recv (Some c) (fun fn => Call (as_func fn) (k 0%Z (Some e))) in
  run [Run t; Run t; Run t; Run t] m = Some (set_task t waiting m) /\
  (forall (m1 m2 : machine) (a : action),
      tasks m1 !! t = Some waiting ->
      chans m1 !! c = Some false ->
      step m1 a = Some m2 ->
      (forall s : nat, a <> Sync s t) ->
      tasks m2 !! t = Some waiting).
Proof.
  intros Hc Ht HF Hsome Hx waiting. split.
  - assert (Hlt : t < length (tasks m)) by (by eapply lookup_lt_Some).
    unfold Await in Ht. simpl.
    rewrite step_own by done. unfold run_task. rewrite Ht, HF.
    own_step. unfold fired at 1. machine_simpl. rewrite Hx.
    own_step. unfold ctx_err at 1. machine_simpl. rewrite Hx.
    own_step. unfold Await_deferred at 1. rewrite HF, Hsome.
    by rewrite !set_task_twice.
  - intros m1 m2 a Ht1 Hopen Hstep Hsync.
    by eapply plain_recv_waits.
Qed.

End AwaitFacts.

Section AwaitWitnesses.

Import Rt.

Lemma Await_cancelled_returns_zero_witness :
  let k := fun (v : Z) (err : option error) => Emit (Returned v err) Ret in
  let m := {| chans := [false]; ctxs := [Some "context canceled"%string];
              futs := [{| deferFn := None; result := Some 0 |}]; wgs := [];
              tasks := [Await 0 0 k]; log := []; crashed := None |} in
  run [Run 0; Run 0; Run 0; Run 0] m
  = Some (set_task 0 (k 0%Z (Some "context canceled"%string)) m).
Proof.
  intros k m.
  apply (Await_cancelled_returns_zero m 0 0 0 k
           {| deferFn := None; result := Some 0 |} "context canceled"%string);
    reflexivity.
Defined.

Lemma Await_cancelled_waits_for_handoff_witness :
  let k := fun (v : Z) (err : option error) => Emit (Returned v err) Ret in
  let m := {| chans := [false; false]; ctxs := [Some "context canceled"%string];
              futs := [{| deferFn := Some 1; result := Some 0 |}]; wgs := [];
              tasks := [Await 0 0 k]; log := []; crashed := None |} in
  let waiting :=
    Recv (Some 1)
      (fun fn => Call (as_func fn) (k 0%Z (Some "context canceled"%string))) in
  run [Run 0; Run 0; Run 0; Run 0] m = Some (set_task 0 waiting m).
Proof.
  intros k m waiting.
  apply (Await_cancelled_waits_for_handoff m 0 0 0 k
           {| deferFn := Some 1; result := Some 0 |} "context canceled"%string 1);
    reflexivity.
Defined.

End AwaitWitnesses.

(** ** Collector with an arbitrary rule *)
Section CollectorRuleFacts.

Import Seq.

Context {T V : Type}.
Variable collect : list T -> V * bool * list T.

Lemma Collector_loop_closes (fuel : nat) :
  (forall input v rest, collect input = (v, true, rest) -> length rest < length input) ->
  forall input : list T,
    length input < fuel ->
    exists out : list V,
      Collector_loop fuel collect input = (out, true) /\ length out <= length input.
Proof.
  intros Hprogress. induction fuel as [|fuel IH]; intros input Hfuel; [lia|].
  simpl. destruct (collect input) as [[v ok] rest] eqn:Hc. destruct ok.
  - pose proof (Hprogress input v rest Hc) as Hlt.
    destruct (IH rest ltac:(lia)) as (out & Hrun & Hlen). rewrite Hrun.
    exists (v :: out). split; [done|]. simpl. lia.
  - exists []. split; [done|]. simpl. lia.
Qed.

Lemma Collector_loop_stuck (v : V) (fuel : nat) :
  collect [] = (v, true, []) ->
  Collector_loop fuel collect [] = (replicate fuel v, false).
Proof.
  intros Hc. induction fuel as [|fuel IH]; simpl; [done|].
  by rewrite Hc, IH.
Qed.

(** [Collector] leaves the batching to the rule.  If every accepted call
    of the rule reads at least one item, the output closes after at most
    as many aggregates as there are items. *)
Theorem Collector_closes_when_rule_reads (input : list T) (fuel : nat) :
  (forall input v rest,
      collect input = (v, true, rest) -> length rest < length input) ->
  length input < fuel ->
  exists out : list V,
    Collector fuel collect input = (out, true) /\ length out <= length input.
Proof.
  intros Hprogress Hfuel. unfold Collector. rewrite OrDone_id.
  by apply Collector_loop_closes.
Qed.

(** If the rule answers [ok] on the closed input, the output never
    closes: one more aggregate comes at every round. *)
Theorem Collector_never_closes_when_rule_accepts_closed (v : V) (fuel : nat) :
  collect [] = (v, true, []) ->
  Collector fuel collect [] = (replicate fuel v, false).
Proof.
  intros Hc. unfold Collector, OrDone, Map. simpl.
  by apply Collector_loop_stuck.
Qed.

End CollectorRuleFacts.

Section CollectorRuleWitnesses.

Import Seq.

Lemma Collector_closes_when_rule_reads_witness :
  let collect := fun input : list Z =>
    match input with
    | [] => (0%Z, false, [])
    | x :: rest => (x, true, rest)
    end in
  exists out : list Z,
    Collector 4 collect [1; 2; 3]%Z = (out, true) /\ length out <= 3.
Proof.
  intros collect.
  apply (Collector_closes_when_rule_reads collect [1; 2; 3]%Z 4).
  - intros input v rest. destruct input as [|x input]; simpl.
    + discriminate.
    + intros [= _ <-]. lia.
  - simpl. lia.
Defined.

Lemma Collector_never_closes_when_rule_accepts_closed_witness :
  Collector 3 (fun input : list Z => (0%Z, true, input)) [] = ([0; 0; 0]%Z, false).
Proof.
  apply (Collector_never_closes_when_rule_accepts_closed
           (fun input : list Z => (0%Z, true, input)) 0%Z 3).
  reflexivity.
Defined.

End CollectorRuleWitnesses.

(** ** Every schedule *)
Section SchedFacts.

Import Rt Sched.

Lemma step_moves (m m' : machine) (a : action) :
  step m a = Some m' -> no_cancel a -> a ∈ moves m.
Proof.
  intros Hstep Hok. unfold moves.
  destruct a as [t|t|s r|x e]; [| | |done].
  - destruct (Nat.lt_ge_cases t (length (tasks m))) as [Hlt|Hge].
    + rewrite !elem_of_app. left. apply list_elem_of_fmap. exists t.
      split; [done|]. apply elem_of_seq. lia.
    + destruct (step_Run_out_of_range m t Hge) as [H _]. congruence.
  - destruct (Nat.lt_ge_cases t (length (tasks m))) as [Hlt|Hge].
    + rewrite !elem_of_app. right. left. apply list_elem_of_fmap. exists t.
      split; [done|]. apply elem_of_seq. lia.
    + destruct (step_Run_out_of_range m t Hge) as [_ H]. congruence.
  - destruct (Nat.lt_ge_cases s (length (tasks m))) as [Hs|Hs];
      [|rewrite step_Sync_out_of_range in Hstep by (by left); done].
    destruct (Nat.lt_ge_cases r (length (tasks m))) as [Hr|Hr];
      [|rewrite step_Sync_out_of_range in Hstep by (by right); done].
    rewrite !elem_of_app. right. right.
    apply list_elem_of_bind. exists s. split; [|apply elem_of_seq; lia].
    apply list_elem_of_fmap. exists r. split; [done|apply elem_of_seq; lia].
Qed.

Lemma step_candidates (m m' : machine) (a : action) :
  step m a = Some m' -> std_action a -> a ∈ candidates m.
Proof.
  intros Hstep Hok. unfold candidates. rewrite elem_of_app.
  destruct a as [t|t|s r|x e]; [left; by eapply step_moves..|].
  right. unfold step, cancel in Hstep. destruct (crashed m); [done|].
  destruct (ctxs m !! x) as [[e'|]|] eqn:Hx; [done| |done].
  apply list_elem_of_bind. exists x. split.
  - apply list_elem_of_fmap. exists e. split; [done|]. exact Hok.
  - apply elem_of_seq. apply lookup_lt_Some in Hx. lia.
Qed.

(** What [explore] has checked holds after every schedule. *)
Lemma explore_sound (acts : machine -> list action) (ok : action -> Prop)
    (P : machine -> bool) :
  (forall (m m' : machine) (a : action), step m a = Some m' -> ok a -> a ∈ acts m) ->
  forall (d : nat) (m : machine),
    explore acts P d m = true ->
    forall (sched : list action) (m' : machine),
      Forall ok sched -> run sched m = Some m' -> P m' = true.
Proof.
  intros Hacts. induction d as [|d IH]; intros m Hex sched m' Hok Hrun;
    simpl in Hex; apply andb_prop in Hex as [HP Hall];
    rewrite List.forallb_forall in Hall;
    (destruct sched as [|a sched]; simpl in Hrun; [congruence|]);
    destruct (step m a) as [m1|] eqn:Hstep; try done;
    apply Forall_cons in Hok as [Ha Hok];
    pose proof (Hacts m m1 a Hstep Ha) as Hin;
    apply list_elem_of_In in Hin; specialize (Hall a Hin).
  - unfold refused in Hall. by rewrite Hstep in Hall.
  - rewrite Hstep in Hall. by eapply IH.
Qed.

Lemma returns_follow_spec (id : nat) (l : list obs) :
  returns_follow (Cleaned id) l = true ->
  forall (pre : list obs) (v : Z) (err : option error) (post : list obs),
    l = pre ++ Returned v err :: post -> Cleaned id ∈ pre.
Proof.
  induction l as [|x rest IH]; intros Hl pre v err post Heq.
  - by destruct pre.
  - simpl in Hl. destruct pre as [|y pre]; simpl in Heq; injection Heq as -> ->.
    + by rewrite bool_decide_eq_false_2 in Hl.
    + destruct (decide (y = Cleaned id)) as [->|Hne]; [by left|].
      rewrite bool_decide_eq_false_2 in Hl by done. right.
      destruct y; try done; by eapply IH.
Qed.

Lemma at_most_once_spec (o : obs) (l : list obs) :
  at_most_once o l = true ->
  forall pre post : list obs, l = pre ++ o :: post -> o ∉ post.
Proof.
  induction l as [|x rest IH]; intros Hl pre post Heq.
  - by destruct pre.
  - simpl in Hl. destruct pre as [|y pre]; simpl in Heq; injection Heq as -> ->.
    + rewrite bool_decide_eq_true_2 in Hl by done.
      apply negb_true_iff, bool_decide_eq_false in Hl. done.
    + destruct (decide (y = o)) as [->|Hne].
      * rewrite bool_decide_eq_true_2 in Hl by done.
        apply negb_true_iff, bool_decide_eq_false in Hl.
        exfalso. apply Hl. rewrite elem_of_app. right. by left.
      * rewrite bool_decide_eq_false_2 in Hl by done. by eapply IH.
Qed.

End SchedFacts.

(** ** Exec, Then and Await without deferFn, on every schedule *)
Section Async0Facts.

Import Rt Sched Async0.

(** [f := Exec(ctx, fn); f.Await(ctx)] with [fn] returning [(5, nil)].
    There is a run in which [fn] is called and [Await] returns its
    result.  On every schedule, cancellation included: nothing panics,
    [fn] is called at most once and [Await] returns at most once; while
    the token has not fired [Await] returns only [fn]'s result, after
    the call; once it has fired [Await] can also return the zero value
    with [ctx.Err()], or the zero value with a nil error (received from
    the result channel that the cancelled [Map] has closed). *)
Theorem Exec_runs_fn_at_most_once (n : nat) :
  (exists m : machine,
      run sched_exec_await (init 1 (caller_exec_await (S (S n)))) = Some m /\
      log m = [Called 1; Returned 5 None]) /\
  (forall (sched : list action) (m : machine),
      Forall std_action sched ->
      run sched (init 1 (caller_exec_await (S (S n)))) = Some m ->
      crashed m = None /\
      (log m ∈ [[]; [Called 1]; [Called 1; Returned 5 None]] \/
       fired m 0 = true /\
       log m ∈ [[Returned 0 (ctx_err m 0)];
                [Returned 0 (ctx_err m 0); Called 1];
                [Called 1; Returned 0 (ctx_err m 0)];
                [Returned 0 None];
                [Called 1; Returned 0 None]])).
Proof.
  split; [eexists; split; [vm_compute; reflexivity|reflexivity]|].
  intros sched m Hok Hrun.
  set (P := fun m : machine =>
    bool_decide
      (crashed m = None /\
       (log m ∈ [[]; [Called 1]; [Called 1; Returned 5 None]] \/
        fired m 0 = true /\
        log m ∈ [[Returned 0 (ctx_err m 0)];
                 [Returned 0 (ctx_err m 0); Called 1];
                 [Called 1; Returned 0 (ctx_err m 0)];
                 [Returned 0 None];
                 [Called 1; Returned 0 None]]))).
  assert (Hex : explore candidates P 20 (init 1 (caller_exec_await (S (S n)))) = true)
    by (vm_compute; reflexivity).
  pose proof (explore_sound candidates std_action P step_candidates 20 _ Hex
                sched m Hok Hrun) as HP.
  by apply bool_decide_eq_true in HP.
Qed.

(** [first := Exec(ctx, fn); g := Then(ctx, first, next); g.Await(ctx)]
    while the context is not cancelled, on every schedule.  When [fn]
    returns [(5, nil)], [next] is called once, after [fn], with 5, and
    [Await] returns what it returns.  When [fn] returns [(7, err)],
    [next] is never called and [Await] returns the zero value with
    [fn]'s error. *)
Theorem Then_calls_next_only_on_success (n : nat) :
  (exists m : machine,
      run sched_then_await (init 1 (caller_then_await (S (S n)) 5 None)) = Some m /\
      log m = [Called 1; Called 2; Returned 10 None]) /\
  (forall (sched : list action) (m : machine),
      Forall no_cancel sched ->
      run sched (init 1 (caller_then_await (S (S n)) 5 None)) = Some m ->
      crashed m = None /\
      log m ∈ [[]; [Called 1]; [Called 1; Called 2];
               [Called 1; Called 2; Returned 10 None]]) /\
  (exists m : machine,
      run sched_then_await_failed
        (init 1 (caller_then_await (S (S n)) 7 (Some "boom"%string))) = Some m /\
      log m = [Called 1; Returned 0 (Some "boom"%string)]) /\
  (forall (sched : list action) (m : machine),
      Forall no_cancel sched ->
      run sched (init 1 (caller_then_await (S (S n)) 7 (Some "boom"%string))) = Some m ->
      crashed m = None /\
      log m ∈ [[]; [Called 1]; [Called 1; Returned 0 (Some "boom"%string)]]).
Proof.
  split; [eexists; split; [vm_compute; reflexivity|reflexivity]|].
  split; [|split; [eexists; split; [vm_compute; reflexivity|reflexivity]|]].
  - intros sched m Hok Hrun.
    set (P := fun m : machine =>
      bool_decide
        (crashed m = None /\
         log m ∈ [[]; [Called 1]; [Called 1; Called 2];
                  [Called 1; Called 2; Returned 10 None]])).
    assert (Hex : explore moves P 24
                    (init 1 (caller_then_await (S (S n)) 5 None)) = true)
      by (vm_compute; reflexivity).
    pose proof (explore_sound moves no_cancel P step_moves 24 _ Hex
                  sched m Hok Hrun) as HP.
    by apply bool_decide_eq_true in HP.
  - intros sched m Hok Hrun.
    set (P := fun m : machine =>
      bool_decide
        (crashed m = None /\
         log m ∈ [[]; [Called 1]; [Called 1; Returned 0 (Some "boom"%string)]])).
    assert (Hex : explore moves P 24
                    (init 1 (caller_then_await (S (S n)) 7 (Some "boom"%string)))
                  = true)
      by (vm_compute; reflexivity).
    pose proof (explore_sound moves no_cancel P step_moves 24 _ Hex
                  sched m Hok Hrun) as HP.
    by apply bool_decide_eq_true in HP.
Qed.

End Async0Facts.

Section Async0Witnesses.

Import Rt Sched Async0.

Lemma Exec_runs_fn_at_most_once_witness :
  exists m : machine,
    run sched_exec_await (init 1 (caller_exec_await 2)) = Some m /\
    crashed m = None /\
    (log m ∈ [[]; [Called 1]; [Called 1; Returned 5 None]] \/
     fired m 0 = true /\
     log m ∈ [[Returned 0 (ctx_err m 0)];
              [Returned 0 (ctx_err m 0); Called 1];
              [Called 1; Returned 0 (ctx_err m 0)];
              [Returned 0 None];
              [Called 1; Returned 0 None]]).
Proof.
  eexists. split; [vm_compute; reflexivity|].
  apply (proj2 (Exec_runs_fn_at_most_once 0) sched_exec_await).
  - unfold sched_exec_await. simpl. repeat constructor.
  - vm_compute. reflexivity.
Defined.

Lemma Then_calls_next_only_on_success_witness :
  exists m : machine,
    run sched_then_await_failed
      (init 1 (caller_then_await 2 7 (Some "boom"%string))) = Some m /\
    crashed m = None /\
    log m ∈ [[]; [Called 1]; [Called 1; Returned 0 (Some "boom"%string)]].
Proof.
  eexists. split; [vm_compute; reflexivity|].
  apply (proj2 (proj2 (proj2 (Then_calls_next_only_on_success 0)))
           sched_then_await_failed).
  - unfold sched_then_await_failed. simpl. repeat constructor.
  - vm_compute. reflexivity.
Defined.

End Async0Witnesses.

(** ** Await and the cleanup, on every schedule *)
Section AwaitCleanupFacts.

Import Rt Sched.

(** [f := ExecWithDefer(ctx, fn); f.Await(ctx)] with [fn] returning the
    cleanup 7.  There is a run in which [Await] runs the cleanup and
    returns [fn]'s result.  On every schedule, cancellation and the
    panics of the relays included, [Await] does not return before the
    cleanup has run, and the cleanup is not run twice. *)
Theorem Await_returns_only_after_cleanup (n : nat) :
  (exists m : machine,
      run sched_defer_await_returns (init 1 (caller_defer_await (S (S n)))) = Some m /\
      log m = [Called 1; Cleaned 7; Returned 5 None]) /\
  (forall (sched : list action) (m : machine),
      Forall std_action sched ->
      run sched (init 1 (caller_defer_await (S (S n)))) = Some m ->
      (forall (pre : list obs) (v : Z) (err : option error) (post : list obs),
          log m = pre ++ Returned v err :: post -> Cleaned 7 ∈ pre) /\
      (forall pre post : list obs,
          log m = pre ++ Cleaned 7 :: post -> Cleaned 7 ∉ post)).
Proof.
  split; [eexists; split; [vm_compute; reflexivity|reflexivity]|].
  intros sched m Hok Hrun.
  set (P := fun m : machine =>
    returns_follow (Cleaned 7) (log m) && at_most_once (Cleaned 7) (log m)).
  assert (Hex : explore candidates P 24 (init 1 (caller_defer_await (S (S n)))) = true)
    by (vm_compute; reflexivity).
  pose proof (explore_sound candidates std_action P step_candidates 24 _ Hex
                sched m Hok Hrun) as HP.
  apply andb_prop in HP as [H1 H2]. split.
  - by apply returns_follow_spec.
  - by apply at_most_once_spec.
Qed.

End AwaitCleanupFacts.

Section AwaitCleanupWitnesses.

Import Rt Sched.

Lemma Await_returns_only_after_cleanup_witness :
  exists m : machine,
    run sched_defer_await (init 1 (caller_defer_await 2)) = Some m /\
    (forall (pre : list obs) (v : Z) (err : option error) (post : list obs),
        log m = pre ++ Returned v err :: post -> Cleaned 7 ∈ pre) /\
    (forall pre post : list obs,
        log m = pre ++ Cleaned 7 :: post -> Cleaned 7 ∉ post).
Proof.
  eexists. split; [vm_compute; reflexivity|].
  apply (proj2 (Await_returns_only_after_cleanup 0) sched_defer_await).
  - unfold sched_defer_await. repeat constructor.
  - vm_compute. reflexivity.
Defined.

End AwaitCleanupWitnesses.

(** ** Then, read sequentially *)
Section ThenSeqFacts.

Import Async0Seq.

Context {S T V W : Type}.

(** While the context is not cancelled [Then] is associative on a future
    that holds one result: composing with [g] and then with [h] is
    composing once with "[g], and [h] on its value unless it failed",
    for the results and for the effects. *)
Theorem Then_associative (zeroV : V) (zeroW : W) (ctx : Seq.Context)
    (g : Seq.Context -> T -> S -> futureResult V * S)
    (h : Seq.Context -> V -> S -> futureResult W * S)
    (r : futureResult T) (closed : bool) (s : S) :
  Seq.Done ctx = false ->
  exists (f1 : Future V) (s1 : S) (f2 : Future W) (s2 : S),
    Then zeroV ctx ([r], closed) g s = Some (f1, s1) /\
    Then zeroW ctx f1 h s1 = Some (f2, s2) /\
    Then zeroW ctx ([r], closed)
      (fun ctx t s => let '(r', s') := g ctx t s in Then_fn zeroW ctx h r' s') s
    = Some (f2, s2).
Proof.
  intros Hlive. unfold Then. rewrite Hlive.
  destruct r as [t [err|]]; unfold Then_fn; simpl.
  - eexists _, _, _, _. split; [reflexivity|]. simpl. split; reflexivity.
  - destruct (g ctx t s) as [[v [err|]] s1]; simpl.
    + eexists _, _, _, _. split; [reflexivity|]. simpl. split; reflexivity.
    + destruct (h ctx v s1) as [w s2] eqn:Hh.
      eexists _, _, _, _. split; [reflexivity|]. simpl. rewrite Hh.
      split; reflexivity.
Qed.

End ThenSeqFacts.

Section ThenSeqWitnesses.

Import Async0Seq.

Lemma Then_associative_witness :
  let ctx := {| Seq.Done := false; Seq.Err := None |} in
  let g := fun (_ : Seq.Context) (t : Z) (calls : nat) =>
             (((t * 2)%Z, None : option Seq.error), Datatypes.S calls) in
  let h := fun (_ : Seq.Context) (v : Z) (calls : nat) =>
             (((v + 1)%Z, None : option Seq.error), Datatypes.S calls) in
  exists (f1 : Future Z) (s1 : nat) (f2 : Future Z) (s2 : nat),
    Then 0%Z ctx ([(5%Z, None)], true) g 0 = Some (f1, s1) /\
    Then 0%Z ctx f1 h s1 = Some (f2, s2) /\
    Then 0%Z ctx ([(5%Z, None)], true)
      (fun ctx t s => let '(r', s') := g ctx t s in Then_fn 0%Z ctx h r' s') 0
    = Some (f2, s2).
Proof.
  intros ctx g h.
  apply (Then_associative 0%Z 0%Z ctx g h (5%Z, None) true 0). reflexivity.
Defined.

End ThenSeqWitnesses.
